(** * A distributed lock state machine on a Postgres hand-off table

    Shallow embedding of the back-end described in
    "Implementing a Distributed Lock State Machine": the table
    [spreadsheets.request_queue], its sparse unique index, the five SQL
    statements the back-end issues (searched UPDATE, validation SELECT,
    grouping UPDATE, settlement UPDATE, COMMIT / ROLLBACK), the
    LISTEN / NOTIFY channel and the loop that drives them.

    Every SQL statement is one atomic step of one connection; the
    concurrent back-ends are interleaved statement by statement. *)

From Stdlib Require Import ZArith List Bool String Lia Arith.
Import ListNotations.
Local Open Scope string_scope.
Local Open Scope Z_scope.

Set Implicit Arguments.

(** ** The hand-off plane: [spreadsheets.request_queue] *)

(** CHECK (request_status IN ('complete','error','in-progress','new')) *)
Inductive status : Type := new | in_progress | complete | error.

(** CHECK (request_type IN ('create','update')) *)
Inductive rtype : Type := create | update.

Definition status_eqb (a b : status) : bool :=
  match a, b with
  | new, new | in_progress, in_progress | complete, complete | error, error => true
  | _, _ => false
  end.

Definition rtype_eqb (a b : rtype) : bool :=
  match a, b with
  | create, create | update, update => true
  | _, _ => false
  end.

Lemma status_eqb_eq a b : status_eqb a b = true <-> a = b.
Proof. destruct a, b; simpl; split; intro H; try reflexivity; discriminate H. Qed.

Lemma rtype_eqb_eq a b : rtype_eqb a b = true <-> a = b.
Proof. destruct a, b; simpl; split; intro H; try reflexivity; discriminate H. Qed.

(** One row.  [process_id] is the nullable TEXT column of the DDL;
    [processor_id] is the column the grouping UPDATE assigns (the DDL
    excerpt of the article leaves out "additional columns"). *)
Record request : Type := mkRequest {
  request_queue_id : Z;
  request_status : status;
  request_type : rtype;
  process_id : option string;
  processor_id : option string;
  spreadsheet_id : string
}.

Definition set_status (st : status) (r : request) : request :=
  mkRequest (request_queue_id r) st (request_type r)
            (process_id r) (processor_id r) (spreadsheet_id r).

Definition set_process_id (p : string) (r : request) : request :=
  mkRequest (request_queue_id r) (request_status r) (request_type r)
            (Some p) (processor_id r) (spreadsheet_id r).

Definition set_processor_id (p : string) (r : request) : request :=
  mkRequest (request_queue_id r) (request_status r) (request_type r)
            (process_id r) (Some p) (spreadsheet_id r).

(** request_status NOT IN ('complete', 'error') *)
Definition outstanding (st : status) : bool :=
  match st with
  | complete | error => false
  | new | in_progress => true
  end.

(** A connection (one back-end process) is named by a number; it has at
    most one open transaction, so the same number names the transaction. *)
Definition connection := nat.

(** The database: the committed rows, the sequence behind
    [request_queue_id], and for every open transaction the rows it has
    locked, each with the version that transaction sees (its pending
    change, or the committed version for a bare FOR UPDATE lock). *)
Record database : Type := mkDatabase {
  request_queue : list request;
  request_queue_id_seq : Z;
  uncommitted : list (connection * request)
}.

Definition empty_database : database := mkDatabase [] 0 [].

(** *** Row locks and read-committed visibility *)

Definition holds (t : connection) (i : Z) (e : connection * request) : bool :=
  Nat.eqb (fst e) t && Z.eqb (request_queue_id (snd e)) i.

Definition held_elsewhere (t : connection) (i : Z) (e : connection * request) : bool :=
  negb (Nat.eqb (fst e) t) && Z.eqb (request_queue_id (snd e)) i.

(** The version of row [i] pending in transaction [t], if [t] locked it. *)
Definition own_version (t : connection) (i : Z) (d : database) : option request :=
  option_map snd (find (holds t i) (uncommitted d)).

(** Row [i] is locked to another process. *)
Definition locked_by_other (t : connection) (i : Z) (d : database) : bool :=
  existsb (held_elsewhere t i) (uncommitted d).

(** What transaction [t] reads for a committed row: its own pending
    version when it has one, the committed version otherwise. *)
Definition seen_by (t : connection) (d : database) (r : request) : request :=
  match own_version t (request_queue_id r) d with
  | Some r' => r'
  | None => r
  end.

Definition visible (t : connection) (d : database) : list request :=
  map (seen_by t d) (request_queue d).

(** Transaction [t] locks row [r] and records [r] as its pending version. *)
Definition write (t : connection) (r : request) (d : database) : database :=
  mkDatabase (request_queue d) (request_queue_id_seq d)
    ((t, r) :: filter (fun e => negb (holds t (request_queue_id r) e)) (uncommitted d)).

Definition write_all (t : connection) (rs : list request) (d : database) : database :=
  fold_left (fun d' r => write t r d') rs d.

(** COMMIT: pending versions become the committed ones, locks are released. *)
Definition commit (t : connection) (d : database) : database :=
  mkDatabase (visible t d) (request_queue_id_seq d)
    (filter (fun e => negb (Nat.eqb (fst e) t)) (uncommitted d)).

(** ROLLBACK (also what the database manager does when the process dies):
    pending versions are dropped, locks are released. *)
Definition rollback (t : connection) (d : database) : database :=
  mkDatabase (request_queue d) (request_queue_id_seq d)
    (filter (fun e => negb (Nat.eqb (fst e) t)) (uncommitted d)).

(** *** The front-end INSERT and the sparse unique index *)

(** CREATE UNIQUE INDEX request_queue_01 ON (spreadsheet_id, request_type)
    WHERE (request_type = 'create'): the index holds the 'create' rows
    only, keyed by [spreadsheet_id]. *)
Definition in_request_queue_01 (sid : string) (r : request) : bool :=
  rtype_eqb (request_type r) create && String.eqb (spreadsheet_id r) sid.

Definition violates_request_queue_01 (ty : rtype) (sid : string) (d : database) : bool :=
  rtype_eqb ty create && existsb (in_request_queue_01 sid) (request_queue d).

(** INSERT INTO spreadsheets.request_queue (request_type, spreadsheet_id)
    VALUES (ty, sid): [None] is the unique violation. *)
Definition insert (ty : rtype) (sid : string) (d : database) : option database :=
  if violates_request_queue_01 ty sid d then None
  else
    let i := request_queue_id_seq d + 1 in
    Some (mkDatabase (request_queue d ++ [mkRequest i new ty None None sid])
                     i (uncommitted d)).

(** *** Searching for work: the searched UPDATE *)

(** ORDER BY request_queue_id FETCH FIRST ROW ONLY *)
Fixpoint first_by_id (rs : list request) : option request :=
  match rs with
  | [] => None
  | r :: rest =>
      match first_by_id rest with
      | None => Some r
      | Some m => if request_queue_id r <=? request_queue_id m then Some r else Some m
      end
  end.

(** WHERE request_status = 'new' AND request_queue_id > $2
    ... FOR UPDATE SKIP LOCKED *)
Definition candidate (t : connection) (line : Z) (d : database) (r : request) : bool :=
  status_eqb (request_status r) new
  && (line <? request_queue_id r)
  && negb (locked_by_other t (request_queue_id r) d).

Definition candidates (t : connection) (line : Z) (d : database) : list request :=
  filter (candidate t line d) (visible t d).

(** UPDATE ... SET process_id = $1, request_status = 'in-progress'
    WHERE (request_queue_id) = (SELECT ...) RETURNING ... *)
Definition search_update (t : connection) (pid : string) (line : Z) (d : database)
  : option request * database :=
  match first_by_id (candidates t line d) with
  | None => (None, d)
  | Some r =>
      let r' := set_status in_progress (set_process_id pid r) in
      (Some r', write t r' d)
  end.

(** *** Validation of an [update] request *)

(** WHERE spreadsheet_id = $1 AND request_type = 'create'
    AND request_status NOT IN ('complete', 'error') *)
Definition create_outstanding (sid : string) (r : request) : bool :=
  String.eqb (spreadsheet_id r) sid
  && rtype_eqb (request_type r) create
  && outstanding (request_status r).

(** SELECT true ... FOR UPDATE NOWAIT: [None] is SQL state 55P03 (a
    selected row is locked to another process); otherwise the selected
    rows are locked by [t], unchanged. *)
Definition validate_create (t : connection) (sid : string) (d : database) : option database :=
  let rows := filter (create_outstanding sid) (visible t d) in
  if existsb (fun r => locked_by_other t (request_queue_id r) d) rows then None
  else Some (write_all t rows d).

(** *** Grouping the outstanding [update] requests *)

(** WHERE spreadsheet_id = $2 AND request_type = 'update'
    AND request_status NOT IN ('complete', 'error') *)
Definition update_outstanding (sid : string) (r : request) : bool :=
  String.eqb (spreadsheet_id r) sid
  && rtype_eqb (request_type r) update
  && outstanding (request_status r).

(** UPDATE ... SET processor_id = $1, request_status = 'in-progress'
    WHERE request_queue_id IN (SELECT ... FOR UPDATE NOWAIT) *)
Definition group_update (t : connection) (pid : string) (sid : string) (d : database)
  : option database :=
  let rows := filter (update_outstanding sid) (visible t d) in
  if existsb (fun r => locked_by_other t (request_queue_id r) d) rows then None
  else Some (write_all t (map (fun r => set_status in_progress (set_processor_id pid r)) rows) d).

(** *** Settlement *)

(** WHERE process_id = $1 *)
Definition allocated_to (pid : string) (r : request) : bool :=
  match process_id r with
  | Some p => String.eqb p pid
  | None => false
  end.

(** UPDATE ... SET request_status = 'complete' -- or 'error'
    WHERE process_id = $1.  A plain UPDATE waits for a row locked to
    another process: [None] means the statement has not gone through yet. *)
Definition settle (t : connection) (pid : string) (outcome : status) (d : database)
  : option database :=
  let rows := filter (allocated_to pid) (visible t d) in
  if existsb (fun r => locked_by_other t (request_queue_id r) d) rows then None
  else Some (write_all t (map (set_status outcome) rows) d).

(** ** The back-end process *)

(** Where a back-end is in its loop.  [Validating r] and [Grouping r] are
    the two extra actions taken for an [update] request [r] returned by
    the searched UPDATE; [Settling r ok] carries the outcome of the
    spreadsheet work. *)
Inductive mode : Type :=
| Offline
| Idle
| Scanning
| Validating (r : request)
| Grouping (r : request)
| Executing (r : request)
| Settling (r : request) (ok : bool)
| Committing (r : request).

Record backend : Type := mkBackend {
  phase : mode;
  handler : bool;            (* client.on('notification', ...) registered *)
  listening : bool;          (* LISTEN spreadsheets_request_queue executed *)
  notified : bool;           (* a notification waits for the handler *)
  processId : string;        (* const processId = uuid() *)
  line_in_the_sand : Z;
  work_performed : bool      (* some request was processed in this turn *)
}.

Definition offline_backend : backend :=
  mkBackend Offline false false false "" 0 false.

Definition set_phase (m : mode) (b : backend) : backend :=
  mkBackend m (handler b) (listening b) (notified b) (processId b)
            (line_in_the_sand b) (work_performed b).

Definition set_line (l : Z) (b : backend) : backend :=
  mkBackend (phase b) (handler b) (listening b) (notified b) (processId b)
            l (work_performed b).

Definition set_work (f : bool) (b : backend) : backend :=
  mkBackend (phase b) (handler b) (listening b) (notified b) (processId b)
            (line_in_the_sand b) f.

Definition set_notified (f : bool) (b : backend) : backend :=
  mkBackend (phase b) (handler b) (listening b) f (processId b)
            (line_in_the_sand b) (work_performed b).

(** What an observer of one back-end records: the start of a turn through
    the table (with the line-in-the-sand it starts from), an allocation
    that went through, a request skipped after a ROLLBACK, the COMMIT
    that ends the work on a request, the return to the idle state, the
    death of the process. *)
Inductive event : Type :=
| SweepStart (line : Z)
| Claimed (i : Z)
| Skipped (i : Z)
| Committed (i : Z)
| WentIdle
| Crashed.

Definition outcome_status (ok : bool) : status := if ok then complete else error.

(** One statement of back-end [t].  [ok] is the outcome of the spreadsheet
    work, read only while [Executing]. *)
Definition backend_step (t : connection) (ok : bool) (b : backend) (d : database)
  : backend * database * list event :=
  match phase b with
  | Offline | Idle => (b, d, [])
  | Scanning =>
      match search_update t (processId b) (line_in_the_sand b) d with
      | (None, d') =>
          if work_performed b
          then (set_work false (set_line 0 b), d', [SweepStart 0])
          else (set_phase Idle (set_line 0 b), d', [WentIdle])
      | (Some r, d') =>
          match request_type r with
          | create => (set_phase (Executing r) b, d', [Claimed (request_queue_id r)])
          | update => (set_phase (Validating r) b, d', [])
          end
      end
  | Validating r =>
      match validate_create t (spreadsheet_id r) d with
      | None =>
          (set_phase Scanning (set_line (request_queue_id r) b), rollback t d,
           [Skipped (request_queue_id r)])
      | Some d' => (set_phase (Grouping r) b, d', [])
      end
  | Grouping r =>
      match group_update t (processId b) (spreadsheet_id r) d with
      | None =>
          (set_phase Scanning (set_line (request_queue_id r) b), rollback t d,
           [Skipped (request_queue_id r)])
      | Some d' => (set_phase (Executing r) b, d', [Claimed (request_queue_id r)])
      end
  | Executing r => (set_phase (Settling r ok) (set_work true b), d, [])
  | Settling r o =>
      match settle t (processId b) (outcome_status o) d with
      | None => (b, d, [])
      | Some d' => (set_phase (Committing r) b, d', [])
      end
  | Committing r =>
      (set_phase Scanning (set_line (request_queue_id r) b), commit t d,
       [Committed (request_queue_id r)])
  end.

(** ** The whole system: the database, the back-ends, the channel *)

Record system : Type := mkSystem {
  ledger : database;
  backends : connection -> backend;
  journal : list (connection * event)   (* observations, most recent first *)
}.

Definition initial : system := mkSystem empty_database (fun _ => offline_backend) [].

Definition upd (w : connection) (b : backend) (f : connection -> backend)
  : connection -> backend :=
  fun w' => if Nat.eqb w' w then b else f w'.

(** The three calls a back-end makes on its [pg] client when it starts. *)
Inductive client_call : Type :=
| On_notification     (* client.on('notification', async () => { ... }) *)
| Query_LISTEN        (* client.query('LISTEN spreadsheets_request_queue') *)
| Query_NOTIFY.       (* client.query('NOTIFY spreadsheets_request_queue') *)

Definition client_call_eqb (a b : client_call) : bool :=
  match a, b with
  | On_notification, On_notification | Query_LISTEN, Query_LISTEN
  | Query_NOTIFY, Query_NOTIFY => true
  | _, _ => false
  end.

(** NOTIFY reaches the clients that are listening at that moment, and
    nobody else; it is not kept for later listeners. *)
Definition deliver (b : backend) : backend :=
  if listening b && handler b then set_notified true b else b.

Definition notify (s : system) : system :=
  mkSystem (ledger s) (fun w => deliver (backends s w)) (journal s).

Definition client_exec (w : connection) (s : system) (c : client_call) : system :=
  let b := backends s w in
  match c with
  | On_notification =>
      mkSystem (ledger s)
        (upd w (mkBackend (phase b) true (listening b) (notified b) (processId b)
                          (line_in_the_sand b) (work_performed b)) (backends s))
        (journal s)
  | Query_LISTEN =>
      mkSystem (ledger s)
        (upd w (mkBackend (phase b) (handler b) true (notified b) (processId b)
                          (line_in_the_sand b) (work_performed b)) (backends s))
        (journal s)
  | Query_NOTIFY => notify s
  end.

(** The start-up of the back-end, in program order. *)
Definition prime_the_pump : list client_call :=
  [On_notification; Query_LISTEN; Query_NOTIFY].

Definition boot (calls : list client_call) (w : connection) (s : system) : system :=
  fold_left (client_exec w)
    calls
    (mkSystem (ledger s) (upd w (set_phase Idle offline_backend) (backends s)) (journal s)).

Inductive action : Type :=
| Enqueue (ty : rtype) (sid : string)   (* front-end: INSERT, then NOTIFY *)
| Start (w : connection)                (* a back-end comes online *)
| Wake (w : connection) (pid : string)  (* its notification handler runs *)
| Run (w : connection) (ok : bool)      (* its next statement *)
| Crash (w : connection).               (* it dies *)

Definition exec (a : action) (s : system) : system :=
  match a with
  | Enqueue ty sid =>
      match insert ty sid (ledger s) with
      | None => s
      | Some d' => notify (mkSystem d' (backends s) (journal s))
      end
  | Start w =>
      match phase (backends s w) with
      | Offline => boot prime_the_pump w s
      | _ => s
      end
  | Wake w pid =>
      let b := backends s w in
      match phase b with
      | Idle =>
          if notified b
          then mkSystem (ledger s)
                 (upd w (mkBackend Scanning (handler b) (listening b) false pid
                                   (line_in_the_sand b) false) (backends s))
                 ((w, SweepStart (line_in_the_sand b)) :: journal s)
          else s
      | _ => s
      end
  | Run w ok =>
      let '(b', d', evs) := backend_step w ok (backends s w) (ledger s) in
      mkSystem d' (upd w b' (backends s)) (map (pair w) evs ++ journal s)
  | Crash w =>
      match phase (backends s w) with
      | Offline => s
      | _ => mkSystem (rollback w (ledger s)) (upd w offline_backend (backends s))
               ((w, Crashed) :: journal s)
      end
  end.

Definition run (tr : list action) (s : system) : system :=
  fold_left (fun s' a => exec a s') tr s.

Inductive reachable : system -> Prop :=
| reachable_initial : reachable initial
| reachable_exec s a : reachable s -> reachable (exec a s).

(** ** Facts about the statements *)

Section Statements.

Lemma first_by_id_none (rs : list request) :
  first_by_id rs = None -> rs = [].
Proof.
  destruct rs as [|r rest]; simpl; [reflexivity|].
  destruct (first_by_id rest) as [m|]; [|discriminate].
  destruct (request_queue_id r <=? request_queue_id m); discriminate.
Qed.

Lemma first_by_id_some (rs : list request) (m : request) :
  first_by_id rs = Some m ->
  In m rs /\ forall r, In r rs -> request_queue_id m <= request_queue_id r.
Proof.
  revert m. induction rs as [|a rest IH]; simpl; intros m H; [discriminate|].
  destruct (first_by_id rest) as [m'|] eqn:E.
  - destruct (IH m' eq_refl) as [Hin Hmin].
    destruct (request_queue_id a <=? request_queue_id m') eqn:C;
      injection H as <-.
    + apply Z.leb_le in C. split; [now left|].
      intros r [<-|Hr]; [lia|]. specialize (Hmin r Hr). lia.
    + apply Z.leb_gt in C. split; [now right|].
      intros r [<-|Hr]; [lia|]. now apply Hmin.
  - injection H as <-. apply first_by_id_none in E. subst rest.
    split; [now left|]. intros r [<-|[]]. lia.
Qed.

(** A row lock, as a proposition: [t] has row [i] among its pending rows. *)
Definition locked (t : connection) (i : Z) (d : database) : Prop :=
  exists r, In (t, r) (uncommitted d) /\ request_queue_id r = i.

Lemma locked_by_other_true t i d :
  locked_by_other t i d = true <-> exists t', t' <> t /\ locked t' i d.
Proof.
  unfold locked_by_other, locked. rewrite existsb_exists. split.
  - intros [[t' r] [Hin H]]. unfold held_elsewhere in H. simpl in H.
    apply andb_true_iff in H as [Ht Hi].
    apply negb_true_iff, Nat.eqb_neq in Ht. apply Z.eqb_eq in Hi.
    exists t'. split; [exact Ht|]. now exists r.
  - intros [t' [Ht [r [Hin Hi]]]]. exists (t', r). split; [exact Hin|].
    unfold held_elsewhere. simpl. apply andb_true_iff. split.
    + now apply negb_true_iff, Nat.eqb_neq.
    + now apply Z.eqb_eq.
Qed.

Lemma locked_by_other_false t i d :
  locked_by_other t i d = false <-> forall t', locked t' i d -> t' = t.
Proof.
  split.
  - intros H t' Hl. destruct (Nat.eq_dec t' t) as [|Hne]; [assumption|].
    assert (locked_by_other t i d = true) as C
      by (apply locked_by_other_true; now exists t').
    congruence.
  - intros H. destruct (locked_by_other t i d) eqn:E; [|reflexivity].
    apply locked_by_other_true in E as [t' [Hne Hl]]. now apply H in Hl.
Qed.

Lemma own_version_some t i d r :
  own_version t i d = Some r -> In (t, r) (uncommitted d) /\ request_queue_id r = i.
Proof.
  unfold own_version. destruct (find (holds t i) (uncommitted d)) as [[t' r']|] eqn:E;
    simpl; [|discriminate].
  intros H. injection H as <-. apply find_some in E as [Hin H].
  unfold holds in H. simpl in H. apply andb_true_iff in H as [Ht Hi].
  apply Nat.eqb_eq in Ht. apply Z.eqb_eq in Hi. now subst t'.
Qed.

Lemma own_version_none t i d :
  own_version t i d = None <-> ~ locked t i d.
Proof.
  unfold own_version, locked. split.
  - destruct (find (holds t i) (uncommitted d)) eqn:E; simpl; [discriminate|].
    intros _ [r [Hin Hi]]. pose proof (find_none _ _ E _ Hin) as H.
    unfold holds in H. simpl in H. rewrite Nat.eqb_refl in H.
    apply Z.eqb_eq in Hi. rewrite Hi in H. discriminate.
  - intros H. destruct (find (holds t i) (uncommitted d)) as [[t' r']|] eqn:E;
      simpl; [|reflexivity].
    exfalso. apply H. apply find_some in E as [Hin Hh].
    unfold holds in Hh. simpl in Hh. apply andb_true_iff in Hh as [Ht Hi].
    apply Nat.eqb_eq in Ht. apply Z.eqb_eq in Hi. subst t'. now exists r'.
Qed.

Lemma seen_by_id t d r : request_queue_id (seen_by t d r) = request_queue_id r.
Proof.
  unfold seen_by. destruct (own_version t (request_queue_id r) d) eqn:E; [|reflexivity].
  now apply own_version_some in E.
Qed.

Lemma seen_by_unlocked t d r :
  ~ locked t (request_queue_id r) d -> seen_by t d r = r.
Proof.
  intros H. unfold seen_by. apply own_version_none in H. now rewrite H.
Qed.

Lemma visible_no_locks t d :
  (forall i, ~ locked t i d) -> visible t d = request_queue d.
Proof.
  intros H. unfold visible. rewrite <- (map_id (request_queue d)) at 2.
  apply map_ext. intros r. now apply seen_by_unlocked.
Qed.

(** *** What [write] does to the pending rows *)

Lemma in_write t r d e :
  In e (uncommitted (write t r d)) <->
  e = (t, r) \/ (In e (uncommitted d) /\ holds t (request_queue_id r) e = false).
Proof.
  unfold write. simpl. rewrite filter_In, negb_true_iff. intuition congruence.
Qed.

Lemma locked_write t r d t' i :
  locked t' i (write t r d) <-> (t' = t /\ i = request_queue_id r) \/ locked t' i d.
Proof.
  unfold locked. split.
  - intros [q [Hin Hi]]. apply in_write in Hin as [E|[Hin _]].
    + injection E as -> ->. left. now split.
    + right. now exists q.
  - intros [[-> ->]|[q [Hin Hi]]].
    + exists r. split; [|reflexivity]. apply in_write. now left.
    + destruct (holds t (request_queue_id r) (t', q)) eqn:H.
      * unfold holds in H. simpl in H. apply andb_true_iff in H as [Ht Hq].
        apply Nat.eqb_eq in Ht. apply Z.eqb_eq in Hq. subst t'.
        exists r. split; [apply in_write; now left | congruence].
      * exists q. split; [|exact Hi]. apply in_write. right. now split.
Qed.

Lemma in_write_other t r d t' q :
  t' <> t -> (In (t', q) (uncommitted (write t r d)) <-> In (t', q) (uncommitted d)).
Proof.
  intros Hne. rewrite in_write. split.
  - intros [E|[H _]]; [injection E as -> _; contradiction | exact H].
  - intros H. right. split; [exact H|]. unfold holds. simpl.
    apply Nat.eqb_neq in Hne. now rewrite Hne.
Qed.

Lemma write_all_cons t r rs d :
  write_all t (r :: rs) d = write_all t rs (write t r d).
Proof. reflexivity. Qed.

Lemma request_queue_write_all t rs d :
  request_queue (write_all t rs d) = request_queue d.
Proof.
  revert d. induction rs as [|r rs IH]; intros d; [reflexivity|].
  now rewrite write_all_cons, IH.
Qed.

Lemma seq_write_all t rs d :
  request_queue_id_seq (write_all t rs d) = request_queue_id_seq d.
Proof.
  revert d. induction rs as [|r rs IH]; intros d; [reflexivity|].
  now rewrite write_all_cons, IH.
Qed.

Lemma locked_write_all t rs d t' i :
  locked t' i (write_all t rs d) <->
  (t' = t /\ exists r, In r rs /\ request_queue_id r = i) \/ locked t' i d.
Proof.
  revert d. induction rs as [|r rs IH]; intros d.
  - simpl. split; [now right|]. intros [[_ [r [[] _]]]|H]. exact H.
  - rewrite write_all_cons, IH, locked_write. split.
    + intros [[-> [q [Hq Hi]]]|[[-> ->]|H]].
      * left. split; [reflexivity|]. exists q. now split; [right|].
      * left. split; [reflexivity|]. exists r. now split; [left|].
      * now right.
    + intros [[-> [q [[<-|Hq] Hi]]]|H].
      * right. left. now split.
      * left. split; [reflexivity|]. now exists q.
      * right. now right.
Qed.

Lemma in_write_all_other t rs d t' q :
  t' <> t -> (In (t', q) (uncommitted (write_all t rs d)) <-> In (t', q) (uncommitted d)).
Proof.
  intros Hne. revert d. induction rs as [|r rs IH]; intros d; [reflexivity|].
  rewrite write_all_cons, IH. now apply in_write_other.
Qed.

(** *** COMMIT and ROLLBACK release the locks of the transaction *)

Lemma in_released t d e :
  In e (filter (fun e => negb (Nat.eqb (fst e) t)) (uncommitted d)) <->
  In e (uncommitted d) /\ fst e <> t.
Proof.
  rewrite filter_In, negb_true_iff, Nat.eqb_neq. reflexivity.
Qed.

Lemma locked_rollback t d t' i :
  locked t' i (rollback t d) <-> t' <> t /\ locked t' i d.
Proof.
  unfold locked, rollback. simpl. split.
  - intros [r [Hin Hi]]. apply in_released in Hin as [Hin Hne]. simpl in Hne.
    split; [exact Hne|]. now exists r.
  - intros [Hne [r [Hin Hi]]]. exists r. split; [|exact Hi].
    apply in_released. now split.
Qed.

Lemma locked_commit t d t' i :
  locked t' i (commit t d) <-> t' <> t /\ locked t' i d.
Proof. exact (locked_rollback t d t' i). Qed.

End Statements.

(** ** The claim scan *)

Section ClaimScan.

Variables (t : connection) (pid : string) (line : Z) (d : database).

(** The rows the scan may take, read off the committed table: status
    [new], beyond the line-in-the-sand, not locked to another process. *)
Definition eligible (r : request) : Prop :=
  In r (request_queue d)
  /\ request_status r = new
  /\ line < request_queue_id r
  /\ locked_by_other t (request_queue_id r) d = false.

Lemma candidate_spec r : candidate t line d r = true <->
  request_status r = new /\ line < request_queue_id r
  /\ locked_by_other t (request_queue_id r) d = false.
Proof.
  unfold candidate. rewrite !andb_true_iff, status_eqb_eq, Z.ltb_lt, negb_true_iff.
  tauto.
Qed.

Lemma candidates_fresh :
  (forall i, ~ locked t i d) ->
  forall r, In r (candidates t line d) <-> eligible r.
Proof.
  intros Hfresh r. unfold candidates, eligible.
  rewrite filter_In, candidate_spec, (visible_no_locks Hfresh). tauto.
Qed.



End ClaimScan.

(** Three committed rows; row 1 is locked to process 7. *)
Definition scan_example : database :=
  mkDatabase
    [ mkRequest 1 new create None None "s1";
      mkRequest 2 complete create None None "s2";
      mkRequest 3 new update None None "s1" ]
    3
    [ (7%nat, mkRequest 1 in_progress create (Some "p7") None "s1") ].



Example scan_example_result :
  fst (search_update 0%nat "p0" 0 scan_example)
  = Some (mkRequest 3 in_progress update (Some "p0") None "s1").
Proof. reflexivity. Qed.

(** ** What one statement may do to the database *)

Section Transactions.

(** Two versions of the same request: the columns no statement of the
    back-end assigns agree. *)
Definition same_request (r r' : request) : Prop :=
  request_queue_id r = request_queue_id r'
  /\ request_type r = request_type r'
  /\ spreadsheet_id r = spreadsheet_id r'.

Lemma same_request_refl r : same_request r r.
Proof. repeat split. Qed.

Lemma same_request_sym r r' : same_request r r' -> same_request r' r.
Proof. unfold same_request. intuition congruence. Qed.

Lemma same_request_trans r1 r2 r3 :
  same_request r1 r2 -> same_request r2 r3 -> same_request r1 r3.
Proof. unfold same_request. intuition congruence. Qed.

(** The footprint of a statement of transaction [w]: it leaves the
    pending rows of the other transactions alone, takes new locks only on
    existing rows that nobody else has locked, writes versions of rows it
    can see (never turning a status back into [new]), and changes the
    committed table only by a COMMIT. *)
Record tx_step (w : connection) (d d' : database) : Prop := {
  tx_others : forall v q, v <> w ->
      (In (v, q) (uncommitted d') <-> In (v, q) (uncommitted d));
  tx_locks : forall i, locked w i d' ->
      locked w i d
      \/ (locked_by_other w i d = false
          /\ exists r, In r (request_queue d) /\ request_queue_id r = i);
  tx_table : request_queue d' = request_queue d
      \/ (request_queue d' = visible w d /\ forall i, ~ locked w i d');
  tx_seq : request_queue_id_seq d' = request_queue_id_seq d;
  tx_versions : forall q, In (w, q) (uncommitted d') ->
      In (w, q) (uncommitted d)
      \/ exists r, In r (visible w d) /\ same_request r q
                   /\ (request_status q = new -> request_status r = new)
}.

Lemma tx_step_refl w d : tx_step w d d.
Proof.
  constructor; tauto || reflexivity.
Qed.

Lemma in_visible w d r :
  In r (visible w d) ->
  exists r0, In r0 (request_queue d) /\ r = seen_by w d r0
             /\ request_queue_id r0 = request_queue_id r.
Proof.
  unfold visible. rewrite in_map_iff. intros [r0 [<- Hin]].
  exists r0. repeat split; [assumption|]. symmetry. apply seen_by_id.
Qed.

Lemma in_write_all w rs d e :
  In e (uncommitted (write_all w rs d)) ->
  In e (uncommitted d) \/ exists r, In r rs /\ e = (w, r).
Proof.
  revert d. induction rs as [|r rs IH]; intros d H; [now left|].
  rewrite write_all_cons in H. apply IH in H as [H|[q [Hq ->]]].
  - apply in_write in H as [->|[H _]].
    + right. exists r. split; [now left | reflexivity].
    + now left.
  - right. exists q. split; [now right | reflexivity].
Qed.

Lemma existsb_false_in (A : Type) (f : A -> bool) (l : list A) :
  existsb f l = false -> forall x, In x l -> f x = false.
Proof.
  intros H x Hx. destruct (f x) eqn:E; [|reflexivity].
  assert (existsb f l = true) as C by (apply existsb_exists; now exists x).
  congruence.
Qed.

(** The three NOWAIT-style statements have one shape: select rows the
    transaction can see, fail if one is locked elsewhere, otherwise lock
    them all and write a new version of each. *)
Lemma tx_step_write_all w d (p : request -> bool) (f : request -> request) :
  (forall r, same_request r (f r)
             /\ (request_status (f r) = new -> request_status r = new)) ->
  existsb (fun r => locked_by_other w (request_queue_id r) d)
          (filter p (visible w d)) = false ->
  tx_step w d (write_all w (map f (filter p (visible w d))) d).
Proof.
  intros Hf Hfree. constructor.
  - intros v q Hne. now apply in_write_all_other.
  - intros i Hl. apply locked_write_all in Hl as [[_ [q [Hq Hi]]]|Hl]; [|now left].
    right. apply in_map_iff in Hq as [r [<- Hr]].
    destruct (Hf r) as [[Hid _] _]. rewrite <- Hid in Hi. subst i.
    split.
    + exact (existsb_false_in _ _ Hfree r Hr).
    + apply filter_In in Hr as [Hr _].
      apply in_visible in Hr as [r0 [Hin [_ Hid0]]]. now exists r0.
  - left. apply request_queue_write_all.
  - apply seq_write_all.
  - intros q Hq. apply in_write_all in Hq as [Hq|[r' [Hr' E]]]; [now left|].
    injection E as ->. right.
    apply in_map_iff in Hr' as [r [<- Hr]].
    apply filter_In in Hr as [Hr _]. exists r. split; [exact Hr | apply Hf].
Qed.

Lemma same_request_set_status st r : same_request r (set_status st r).
Proof. repeat split. Qed.

Lemma tx_step_search_update w pid line d :
  tx_step w d (snd (search_update w pid line d)).
Proof.
  unfold search_update.
  destruct (first_by_id (candidates w line d)) as [r|] eqn:E; simpl;
    [|apply tx_step_refl].
  apply first_by_id_some in E as [Hin _].
  apply filter_In in Hin as [Hvis Hc]. apply candidate_spec in Hc as [_ [_ Hfree]].
  set (r' := set_status in_progress (set_process_id pid r)).
  constructor.
  - intros v q Hne. now apply in_write_other.
  - intros i Hl. apply locked_write in Hl as [[_ ->]|Hl]; [|now left].
    right. split; [exact Hfree|].
    apply in_visible in Hvis as [r0 [Hin [_ Hid]]]. now exists r0.
  - now left.
  - reflexivity.
  - intros q Hq. apply in_write in Hq as [E|[Hq _]]; [|now left].
    injection E as ->. right. exists r. split; [exact Hvis|].
    split; [repeat split | discriminate].
Qed.

Lemma tx_step_validate_create w sid d d' :
  validate_create w sid d = Some d' -> tx_step w d d'.
Proof.
  unfold validate_create.
  destruct (existsb _ _) eqn:E; [discriminate|]. intros H. injection H as <-.
  rewrite <- (map_id (filter (create_outstanding sid) (visible w d))) at 1.
  apply tx_step_write_all; [|exact E].
  intros r. split; [apply same_request_refl | exact (fun H => H)].
Qed.

Lemma tx_step_group_update w pid sid d d' :
  group_update w pid sid d = Some d' -> tx_step w d d'.
Proof.
  unfold group_update.
  destruct (existsb _ _) eqn:E; [discriminate|]. intros H. injection H as <-.
  apply tx_step_write_all; [|exact E].
  intros r. split; [repeat split | discriminate].
Qed.

Lemma outcome_status_not_new ok : outcome_status ok <> new.
Proof. destruct ok; discriminate. Qed.

Lemma tx_step_settle w pid ok d d' :
  settle w pid (outcome_status ok) d = Some d' -> tx_step w d d'.
Proof.
  unfold settle.
  destruct (existsb _ _) eqn:E; [discriminate|]. intros H. injection H as <-.
  apply tx_step_write_all; [|exact E].
  intros r. split; [apply same_request_set_status|].
  simpl. intros H. now apply outcome_status_not_new in H.
Qed.

Lemma tx_step_rollback w d : tx_step w d (rollback w d).
Proof.
  constructor.
  - intros v q Hne. unfold rollback. simpl. rewrite in_released. simpl. tauto.
  - intros i Hl. apply locked_rollback in Hl as [Hne _]. contradiction.
  - now left.
  - reflexivity.
  - intros q Hq. unfold rollback in Hq. simpl in Hq.
    apply in_released in Hq as [_ Hne]. now contradiction Hne.
Qed.

Lemma tx_step_commit w d : tx_step w d (commit w d).
Proof.
  constructor.
  - intros v q Hne. unfold commit. simpl. rewrite in_released. simpl. tauto.
  - intros i Hl. apply locked_commit in Hl as [Hne _]. contradiction.
  - right. split; [reflexivity|]. intros i Hl.
    apply locked_commit in Hl as [Hne _]. contradiction.
  - reflexivity.
  - intros q Hq. unfold commit in Hq. simpl in Hq.
    apply in_released in Hq as [_ Hne]. now contradiction Hne.
Qed.

(** Every statement of the back-end loop has that footprint. *)
Lemma tx_step_backend_step w ok b d :
  tx_step w d (snd (fst (backend_step w ok b d))).
Proof.
  unfold backend_step. destruct (phase b) as [| | |r|r|r|r o|r]; simpl;
    try apply tx_step_refl.
  - pose proof (tx_step_search_update w (processId b) (line_in_the_sand b) d) as H.
    destruct (search_update w (processId b) (line_in_the_sand b) d) as [[r|] d'];
      simpl in *.
    + destruct (request_type r); exact H.
    + destruct (work_performed b); exact H.
  - destruct (validate_create w (spreadsheet_id r) d) as [d'|] eqn:E; simpl.
    + now apply tx_step_validate_create in E.
    + apply tx_step_rollback.
  - destruct (group_update w (processId b) (spreadsheet_id r) d) as [d'|] eqn:E; simpl.
    + now apply tx_step_group_update in E.
    + apply tx_step_rollback.
  - destruct (settle w (processId b) (outcome_status o) d) as [d'|] eqn:E; simpl.
    + now apply tx_step_settle in E.
    + apply tx_step_refl.
  - apply tx_step_commit.
Qed.

End Transactions.

(** ** Invariants of the database *)

Section LedgerInvariants.

(** No row is locked to two processes. *)
Definition exclusive (d : database) : Prop :=
  forall t1 t2 i, locked t1 i d -> locked t2 i d -> t1 = t2.

(** [request_queue_id] is the primary key, drawn from the sequence. *)
Definition primary_key (d : database) : Prop :=
  NoDup (map request_queue_id (request_queue d))
  /\ forall r, In r (request_queue d) -> request_queue_id r <= request_queue_id_seq d.

(** A pending row is a version of a committed row. *)
Definition versions_of_rows (d : database) : Prop :=
  forall t q, In (t, q) (uncommitted d) ->
  exists r, In r (request_queue d) /\ same_request r q.

(** The entries of the sparse unique index for one spreadsheet. *)
Definition creates_for (sid : string) (d : database) : list request :=
  filter (in_request_queue_01 sid) (request_queue d).

Definition index_unique (d : database) : Prop :=
  forall sid, (List.length (creates_for sid d) <= 1)%nat.

(** A pending row whose status is [new] belongs to a row committed
    [new]: no statement writes [new], it can only have been read. *)
Definition new_is_committed (d : database) : Prop :=
  forall t q', In (t, q') (uncommitted d) -> request_status q' = new ->
  forall q, In q (request_queue d) -> request_queue_id q = request_queue_id q' ->
  request_status q = new.

Record consistent (d : database) : Prop := {
  c_exclusive : exclusive d;
  c_primary_key : primary_key d;
  c_versions : versions_of_rows d;
  c_index : index_unique d;
  c_new : new_is_committed d
}.

Lemma consistent_empty : consistent empty_database.
Proof.
  constructor.
  - intros t1 t2 i [r [[] _]].
  - split; [constructor | intros r []].
  - intros t q [].
  - intros sid. simpl. lia.
  - intros t q' [].
Qed.

Lemma nodup_map_inj (A B : Type) (f : A -> B) (l : list A) (a b : A) :
  NoDup (map f l) -> In a l -> In b l -> f a = f b -> a = b.
Proof.
  induction l as [|x l IH]; simpl; intros Hnd Ha Hb E; [contradiction|].
  inversion Hnd as [|? ? Hnotin Hnd']; subst.
  destruct Ha as [->|Ha], Hb as [->|Hb]; try reflexivity.
  - exfalso. apply Hnotin. rewrite E. now apply in_map.
  - exfalso. apply Hnotin. rewrite <- E. now apply in_map.
  - now apply IH.
Qed.

Lemma seen_by_same w d r :
  primary_key d -> versions_of_rows d -> In r (request_queue d) ->
  same_request r (seen_by w d r).
Proof.
  intros [Hnd _] Hver Hin. unfold seen_by.
  destruct (own_version w (request_queue_id r) d) as [q|] eqn:E;
    [|apply same_request_refl].
  apply own_version_some in E as [Hq Hid].
  destruct (Hver _ _ Hq) as [r0 [Hin0 Hsame]].
  assert (r0 = r) as ->; [|exact Hsame].
  apply (nodup_map_inj request_queue_id _ _ _ Hnd Hin0 Hin).
  destruct Hsame as [H _]. congruence.
Qed.

Lemma visible_ids w d :
  map request_queue_id (visible w d) = map request_queue_id (request_queue d).
Proof.
  unfold visible. rewrite map_map. apply map_ext. intros r. apply seen_by_id.
Qed.

Lemma filter_map_length (A : Type) (p : A -> bool) (f : A -> A) (l : list A) :
  (forall x, In x l -> p (f x) = p x) ->
  List.length (filter p (map f l)) = List.length (filter p l).
Proof.
  induction l as [|x l IH]; simpl; intros H; [reflexivity|].
  rewrite (H x (or_introl eq_refl)).
  destruct (p x); simpl; rewrite IH; auto.
Qed.

Lemma in_request_queue_01_same sid r r' :
  same_request r r' -> in_request_queue_01 sid r' = in_request_queue_01 sid r.
Proof.
  intros [_ [Hty Hsid]]. unfold in_request_queue_01. now rewrite Hty, Hsid.
Qed.

Lemma locked_others w d d' :
  tx_step w d d' -> forall v i, v <> w -> (locked v i d' <-> locked v i d).
Proof.
  intros H v i Hne. unfold locked.
  split; intros [r [Hin Hi]]; exists r; (split; [|exact Hi]);
    now apply (tx_others H).
Qed.

Lemma consistent_tx_step w d d' :
  tx_step w d d' -> consistent d -> consistent d'.
Proof.
  intros Hstep [Hex Hpk Hver Hidx Hnew]. constructor.
  - (* exclusive *)
    intros t1 t2 i H1 H2.
    destruct (Nat.eq_dec t1 w) as [->|N1], (Nat.eq_dec t2 w) as [->|N2];
      [reflexivity| | |].
    + apply (locked_others Hstep) in H2; [|exact N2].
      destruct (tx_locks Hstep H1) as [H1'|[Hfree _]].
      * exact (Hex _ _ _ H1' H2).
      * symmetry. exact (proj1 (locked_by_other_false w i d) Hfree t2 H2).
    + apply (locked_others Hstep) in H1; [|exact N1].
      destruct (tx_locks Hstep H2) as [H2'|[Hfree _]].
      * exact (Hex _ _ _ H1 H2').
      * exact (proj1 (locked_by_other_false w i d) Hfree t1 H1).
    + apply (locked_others Hstep) in H1; [|exact N1].
      apply (locked_others Hstep) in H2; [|exact N2].
      exact (Hex _ _ _ H1 H2).
  - (* primary key *)
    destruct Hpk as [Hnd Hle]. unfold primary_key. rewrite (tx_seq Hstep).
    destruct (tx_table Hstep) as [->|[-> _]]; [now split|].
    rewrite visible_ids. split; [exact Hnd|].
    intros r Hr. apply in_visible in Hr as [r0 [Hin [_ Hid]]].
    rewrite <- Hid. now apply Hle.
  - (* versions of rows *)
    assert (forall r, In r (request_queue d) ->
              exists r', In r' (request_queue d') /\ same_request r r') as Hkeep.
    { intros r Hr. destruct (tx_table Hstep) as [->|[-> _]].
      - exists r. split; [exact Hr | apply same_request_refl].
      - exists (seen_by w d r). split; [now apply in_map|].
        now apply seen_by_same. }
    assert (forall q, In (w, q) (uncommitted d') ->
              exists r, In r (request_queue d) /\ same_request r q) as Hown.
    { intros q Hq. destruct (tx_versions Hstep _ Hq) as [Hq'|[r [Hr [Hsame _]]]].
      - exact (Hver _ _ Hq').
      - apply in_visible in Hr as [r0 [Hin [-> _]]]. exists r0.
        split; [exact Hin|].
        apply same_request_trans with (seen_by w d r0); [|exact Hsame].
        now apply seen_by_same. }
    intros t q Hq.
    assert (exists r, In r (request_queue d) /\ same_request r q) as [r [Hr Hsame]].
    { destruct (Nat.eq_dec t w) as [->|Hne]; [now apply Hown|].
      apply (tx_others Hstep) in Hq; [|exact Hne]. exact (Hver _ _ Hq). }
    destruct (Hkeep r Hr) as [r' [Hr' Hsame']]. exists r'. split; [exact Hr'|].
    apply same_request_trans with r; [now apply same_request_sym | exact Hsame].
  - (* the unique index *)
    intros sid. specialize (Hidx sid). unfold creates_for in *.
    destruct (tx_table Hstep) as [->|[-> _]]; [exact Hidx|].
    unfold visible. rewrite filter_map_length; [exact Hidx|].
    intros r Hr. apply in_request_queue_01_same. now apply seen_by_same.
  - (* a pending [new] is a committed [new] *)
    intros t q' Hin Hst q Hq Hid.
    destruct (Nat.eq_dec t w) as [->|Hne].
    + destruct (tx_table Hstep) as [Ht|[_ Hno]];
        [|exfalso; apply (Hno (request_queue_id q')); now exists q'].
      rewrite Ht in Hq.
      destruct (tx_versions Hstep _ Hin) as [Hold|[r [Hr [Hsame Hread]]]];
        [exact (Hnew _ _ Hold Hst q Hq Hid)|].
      specialize (Hread Hst). destruct Hsame as [Hrid _].
      apply in_visible in Hr as [r0 [Hin0 [Hr Hid0]]].
      assert (q = r0) as ->.
      { apply (nodup_map_inj request_queue_id _ _ _ (proj1 Hpk) Hq Hin0). congruence. }
      unfold seen_by in Hr.
      destruct (own_version w (request_queue_id r0) d) as [v|] eqn:E.
      * subst v. apply own_version_some in E as [Hin1 Hid1].
        apply (Hnew _ _ Hin1 Hread r0 Hin0). congruence.
      * congruence.
    + apply (tx_others Hstep) in Hin; [|exact Hne].
      destruct (tx_table Hstep) as [Ht|[Ht _]]; rewrite Ht in Hq;
        [exact (Hnew _ _ Hin Hst q Hq Hid)|].
      apply in_visible in Hq as [q0 [Hin0 [Hq Hid0]]].
      rewrite seen_by_unlocked in Hq.
      * subst q. apply (Hnew _ _ Hin Hst q0 Hin0). congruence.
      * intros Hl. apply Hne. apply (Hex t w (request_queue_id q0)); [|exact Hl].
        exists q'. split; [exact Hin | congruence].
Qed.

Lemma existsb_filter_nil (A : Type) (p : A -> bool) (l : list A) :
  existsb p l = false -> filter p l = [].
Proof.
  induction l as [|x l IH]; simpl; [reflexivity|].
  destruct (p x); simpl; [discriminate | exact IH].
Qed.

Lemma consistent_insert ty sid d d' :
  insert ty sid d = Some d' -> consistent d -> consistent d'.
Proof.
  unfold insert. destruct (violates_request_queue_01 ty sid d) eqn:V; [discriminate|].
  intros H. injection H as <-. intros [Hex Hpk Hver Hidx Hnew]. constructor.
  - exact Hex.
  - destruct Hpk as [Hnd Hle]. split; simpl.
    + rewrite map_app. simpl. apply NoDup_app; [exact Hnd| | ].
      * constructor; [intros []|constructor].
      * intros i Hi [<-|[]]. apply in_map_iff in Hi as [r [Hid Hr]].
        specialize (Hle r Hr). lia.
    + intros r Hr. apply in_app_iff in Hr as [Hr|[<-|[]]]; simpl.
      * specialize (Hle r Hr). lia.
      * lia.
  - intros t q Hq. destruct (Hver t q Hq) as [r [Hr Hsame]]. exists r.
    split; [|exact Hsame]. simpl. apply in_app_iff. now left.
  - intros sid'. specialize (Hidx sid'). unfold creates_for in *. simpl.
    rewrite filter_app, length_app. simpl.
    destruct (in_request_queue_01 sid'
                (mkRequest (request_queue_id_seq d + 1) new ty None None sid)) eqn:E;
      simpl; [|lia].
    unfold in_request_queue_01 in E. simpl in E.
    apply andb_true_iff in E as [Hty Hsid]. apply String.eqb_eq in Hsid. subst sid'.
    unfold violates_request_queue_01 in V. rewrite Hty in V. simpl in V.
    apply existsb_filter_nil in V. rewrite V. simpl. lia.
  - intros t q' Hin Hst q Hq Hid. simpl in Hq.
    apply in_app_iff in Hq as [Hq|[<-|[]]]; [|reflexivity].
    exact (Hnew _ _ Hin Hst q Hq Hid).
Qed.

End LedgerInvariants.

(** ** Invariants of the running system *)

Section Reachable.

(** *** Projections of one step *)

Lemma exec_run w ok s :
  exec (Run w ok) s =
  mkSystem (snd (fst (backend_step w ok (backends s w) (ledger s))))
           (upd w (fst (fst (backend_step w ok (backends s w) (ledger s)))) (backends s))
           (map (pair w) (snd (backend_step w ok (backends s w) (ledger s))) ++ journal s).
Proof.
  unfold exec. now destruct (backend_step w ok (backends s w) (ledger s)) as [[b' d'] evs].
Qed.

Lemma upd_same w b f : upd w b f w = b.
Proof. unfold upd. now rewrite Nat.eqb_refl. Qed.

Lemma upd_other w b f v : v <> w -> upd w b f v = f v.
Proof. unfold upd. intros H. apply Nat.eqb_neq in H. now rewrite H. Qed.

(** The part of a back-end that steers its loop. *)
Definition control (b : backend) : mode * Z * bool :=
  (phase b, line_in_the_sand b, work_performed b).

Arguments control : simpl never.

Lemma control_deliver b : control (deliver b) = control b.
Proof. unfold deliver. now destruct (listening b && handler b). Qed.

Lemma ledger_boot calls w s : ledger (boot calls w s) = ledger s.
Proof.
  unfold boot.
  set (s0 := mkSystem _ _ _). change (ledger s) with (ledger s0). clearbody s0.
  revert s0. induction calls as [|c calls IH]; intros s0; simpl; [reflexivity|].
  rewrite IH. now destruct c.
Qed.

Lemma journal_boot calls w s : journal (boot calls w s) = journal s.
Proof.
  unfold boot.
  set (s0 := mkSystem _ _ _). change (journal s) with (journal s0). clearbody s0.
  revert s0. induction calls as [|c calls IH]; intros s0; simpl; [reflexivity|].
  rewrite IH. now destruct c.
Qed.

Lemma control_client_exec w s c v :
  control (backends (client_exec w s c) v) = control (backends s v).
Proof.
  destruct c; simpl.
  - unfold upd. destruct (Nat.eqb_spec v w) as [->|]; reflexivity.
  - unfold upd. destruct (Nat.eqb_spec v w) as [->|]; reflexivity.
  - apply control_deliver.
Qed.

Lemma control_boot calls w s v :
  control (backends (boot calls w s) v) =
  if Nat.eqb v w then (Idle, 0, false) else control (backends s v).
Proof.
  unfold boot.
  set (s0 := mkSystem _ _ _).
  assert (control (backends s0 v) =
          if Nat.eqb v w then (Idle, 0, false) else control (backends s v)) as <-.
  { unfold s0, upd. simpl. now destruct (Nat.eqb v w). }
  clearbody s0. revert s0.
  induction calls as [|c calls IH]; intros s0; simpl; [reflexivity|].
  rewrite IH. apply control_client_exec.
Qed.

Lemma phase_control b b' : control b = control b' -> phase b = phase b'.
Proof. unfold control. congruence. Qed.

(** How a step moves the database: not at all, by the front-end INSERT,
    or by a statement (or the forced ROLLBACK) of one transaction. *)
Lemma exec_ledger a s :
  ledger (exec a s) = ledger s
  \/ (exists ty sid, insert ty sid (ledger s) = Some (ledger (exec a s)))
  \/ (exists w, tx_step w (ledger s) (ledger (exec a s))).
Proof.
  destruct a as [ty sid|w|w pid|w ok|w].
  - simpl. destruct (insert ty sid (ledger s)) as [d'|] eqn:E; [|now left].
    right. left. exists ty, sid. exact E.
  - left. simpl. now destruct (phase (backends s w)).
  - left. simpl. destruct (phase (backends s w)); try reflexivity.
    now destruct (notified (backends s w)).
  - right. right. exists w. rewrite exec_run. simpl. apply tx_step_backend_step.
  - simpl. destruct (phase (backends s w)); try (now left);
      right; right; exists w; apply tx_step_rollback.
Qed.

Theorem reachable_consistent s : reachable s -> consistent (ledger s).
Proof.
  induction 1 as [|s a _ IH]; [exact consistent_empty|].
  destruct (exec_ledger a s) as [->|[[ty [sid H]]|[w H]]].
  - exact IH.
  - exact (consistent_insert _ _ H IH).
  - exact (consistent_tx_step H IH).
Qed.

Lemma reachable_run tr s : reachable s -> reachable (run tr s).
Proof.
  revert s. induction tr as [|a tr IH]; intros s H; [exact H|].
  simpl. apply IH. now constructor.
Qed.

(** *** The claim a back-end holds while it works on a request *)

Definition claimed_request (m : mode) : option request :=
  match m with
  | Validating r | Grouping r | Executing r | Settling r _ | Committing r => Some r
  | Offline | Idle | Scanning => None
  end.

(** Between the searched UPDATE and the end of its transaction the
    back-end holds the lock on the returned row, whose committed version
    is still [new] while its pending version is not; outside a
    transaction it holds no lock. *)
Definition holds_claim (d : database) (r : request) (w : connection) : Prop :=
  locked w (request_queue_id r) d
  /\ (exists q, In q (request_queue d)
                /\ request_queue_id q = request_queue_id r
                /\ request_status q = new)
  /\ (forall q', In (w, q') (uncommitted d) ->
                 request_queue_id q' = request_queue_id r ->
                 request_status q' <> new).

Definition claim_at (d : database) (m : mode) (w : connection) : Prop :=
  match claimed_request m with
  | None => forall i, ~ locked w i d
  | Some r => holds_claim d r w
  end.

Definition claims_consistent (s : system) : Prop :=
  forall w, claim_at (ledger s) (phase (backends s w)) w.

Lemma claim_at_frame v d d' m w :
  tx_step v d d' -> exclusive d -> v <> w -> claim_at d m w -> claim_at d' m w.
Proof.
  intros Hstep Hex Hne. unfold claim_at, holds_claim.
  destruct (claimed_request m) as [r|].
  - intros [Hl [[q [Hq [Hid Hst]]] Hown]]. split; [|split].
    + apply (locked_others Hstep); [congruence | exact Hl].
    + destruct (tx_table Hstep) as [->|[-> _]]; [now exists q|].
      exists (seen_by v d q). split; [now apply in_map|].
      rewrite seen_by_unlocked; [now split|].
      intros Hv. rewrite Hid in Hv. apply Hne. exact (Hex _ _ _ Hv Hl).
    + intros q' Hin. apply Hown. apply (tx_others Hstep) in Hin; [exact Hin | congruence].
  - intros H i Hl. apply (H i). apply (locked_others Hstep); [congruence | exact Hl].
Qed.

Lemma claim_at_insert ty sid d d' m w :
  insert ty sid d = Some d' -> claim_at d m w -> claim_at d' m w.
Proof.
  unfold insert. destruct (violates_request_queue_01 ty sid d); [discriminate|].
  intros H. injection H as <-. unfold claim_at, holds_claim, locked. simpl.
  destruct (claimed_request m) as [r|]; [|exact (fun H => H)].
  intros [Hl [[q [Hq Hrest]] Hown]]. split; [exact Hl|]. split; [|exact Hown].
  exists q. split; [apply in_app_iff; now left | exact Hrest].
Qed.

Lemma locked_own_version w i d :
  locked w i d ->
  exists v, own_version w i d = Some v /\ In (w, v) (uncommitted d)
            /\ request_queue_id v = i.
Proof.
  intros Hl. destruct (own_version w i d) as [v|] eqn:E.
  - exists v. split; [reflexivity|]. now apply own_version_some.
  - apply own_version_none in E. contradiction.
Qed.

(** A statement that writes versions of rows it can see, none of them
    turned [new], keeps the claim. *)
Lemma holds_claim_write_all w d r rs :
  (forall x, In x rs ->
     exists v, In v (visible w d)
               /\ request_queue_id x = request_queue_id v
               /\ (request_status v <> new -> request_status x <> new)) ->
  holds_claim d r w -> holds_claim (write_all w rs d) r w.
Proof.
  intros Hrs [Hl [Hq Hown]]. split; [|split].
  - apply locked_write_all. now right.
  - now rewrite request_queue_write_all.
  - intros q' Hin Hid. apply in_write_all in Hin as [Hin|[x [Hx E]]];
      [now apply Hown|].
    injection E as ->.
    destruct (Hrs x Hx) as [v [Hv [Hxv Hkeep]]]. apply Hkeep.
    apply in_visible in Hv as [q0 [_ [-> Hid0]]].
    destruct (locked_own_version Hl) as [v0 [E0 [Hin0 Hv0]]].
    unfold seen_by. replace (request_queue_id q0) with (request_queue_id r) by congruence.
    rewrite E0. now apply Hown.
Qed.

Lemma claim_at_own_step w ok b d :
  claim_at d (phase b) w ->
  claim_at (snd (fst (backend_step w ok b d)))
           (phase (fst (fst (backend_step w ok b d)))) w.
Proof.
  unfold backend_step. destruct (phase b) as [| | |r|r|r|r o|r] eqn:P; simpl.
  - now rewrite P.
  - now rewrite P.
  - intros Hfresh. unfold claim_at in Hfresh. simpl in Hfresh. unfold search_update.
    destruct (first_by_id (candidates w (line_in_the_sand b) d)) as [r|] eqn:E.
    + apply first_by_id_some in E as [Hin _].
      apply (candidates_fresh (line_in_the_sand b) Hfresh) in Hin
        as [Hin [Hst _]].
      assert (holds_claim (write w (set_status in_progress (set_process_id (processId b) r)) d)
                (set_status in_progress (set_process_id (processId b) r)) w)
        as Hgoal.
      { split; [|split].
        - apply locked_write. now left.
        - exists r. now repeat split.
        - intros q' Hq' _. apply in_write in Hq' as [E|[Hold _]].
          + injection E as ->. discriminate.
          + exfalso. apply (Hfresh (request_queue_id q')). now exists q'. }
      simpl. destruct (request_type r); exact Hgoal.
    + destruct (work_performed b); simpl; [rewrite P|]; exact Hfresh.
  - intros Hclaim. unfold validate_create.
    destruct (existsb _ _); simpl.
    + intros i Hi. apply locked_rollback in Hi as [Hne _]. now apply Hne.
    + apply holds_claim_write_all; [|exact Hclaim].
      intros x Hx. apply filter_In in Hx as [Hx _]. exists x. now repeat split.
  - intros Hclaim. unfold group_update.
    destruct (existsb _ _); simpl.
    + intros i Hi. apply locked_rollback in Hi as [Hne _]. now apply Hne.
    + apply holds_claim_write_all; [|exact Hclaim].
      intros x Hx. apply in_map_iff in Hx as [v [<- Hv]].
      apply filter_In in Hv as [Hv _]. exists v.
      split; [exact Hv|]. split; [reflexivity|]. discriminate.
  - exact (fun H => H).
  - intros Hclaim. unfold settle.
    destruct (existsb _ _); simpl.
    + now rewrite P.
    + apply holds_claim_write_all; [|exact Hclaim].
      intros x Hx. apply in_map_iff in Hx as [v [<- Hv]].
      apply filter_In in Hv as [Hv _]. exists v.
      split; [exact Hv|]. split; [reflexivity|].
      intros _. apply outcome_status_not_new.
  - intros _ i Hi. apply locked_commit in Hi as [Hne _]. now apply Hne.
Qed.

Theorem reachable_claims_consistent s : reachable s -> claims_consistent s.
Proof.
  induction 1 as [|s a Hreach IH]; [intros w i [r [[] _]]|].
  pose proof (c_exclusive (reachable_consistent Hreach)) as Hex.
  intros w. specialize (IH w).
  destruct a as [ty sid|v|v pid|v ok|v].
  - simpl. destruct (insert ty sid (ledger s)) as [d'|] eqn:E; [|exact IH].
    simpl. rewrite (phase_control (control_deliver (backends s w))).
    exact (claim_at_insert _ _ _ _ _ E IH).
  - simpl. destruct (phase (backends s v)) eqn:P; try exact IH.
    rewrite ledger_boot.
    rewrite (f_equal (fun c => fst (fst c)) (control_boot prime_the_pump v s w)
             : phase _ = _).
    destruct (Nat.eqb_spec w v) as [->|Hne]; simpl; [|exact IH].
    now rewrite P in IH.
  - simpl. destruct (phase (backends s v)) eqn:P; try exact IH.
    destruct (notified (backends s v)); [|exact IH]. simpl.
    unfold upd. destruct (Nat.eqb_spec w v) as [->|Hne]; [|exact IH].
    now rewrite P in IH.
  - rewrite exec_run. simpl.
    destruct (Nat.eq_dec w v) as [->|Hne].
    + rewrite upd_same. now apply claim_at_own_step.
    + rewrite upd_other by exact Hne.
      apply claim_at_frame with (v := v) (d := ledger s); auto.
      apply tx_step_backend_step.
  - simpl. destruct (phase (backends s v)) eqn:P; try exact IH; simpl;
      (destruct (Nat.eq_dec w v) as [->|Hne];
       [ rewrite upd_same; intros i Hi;
         apply locked_rollback in Hi as [Hne _]; now apply Hne
       | rewrite upd_other by exact Hne;
         apply claim_at_frame with (v := v) (d := ledger s); auto;
         apply tx_step_rollback ]).
Qed.

End Reachable.

(** ** Mutual exclusion *)

Section MutualExclusion.

Lemma search_update_some t pid line d r' :
  fst (search_update t pid line d) = Some r' ->
  exists r, first_by_id (candidates t line d) = Some r
            /\ r' = set_status in_progress (set_process_id pid r)
            /\ snd (search_update t pid line d) = write t r' d.
Proof.
  unfold search_update.
  destruct (first_by_id (candidates t line d)) as [r|]; simpl; [|discriminate].
  intros H. injection H as <-. now exists r.
Qed.



(** *** COMMITs in the journal *)


(** Row [i] is in the table and is not [new]. *)
Definition taken (i : Z) (d : database) : Prop :=
  (exists q, In q (request_queue d) /\ request_queue_id q = i)
  /\ forall q, In q (request_queue d) -> request_queue_id q = i ->
       request_status q <> new.


(** No statement turns a committed row back into [new]. *)
Lemma taken_exec a s i :
  consistent (ledger s) -> taken i (ledger s) -> taken i (ledger (exec a s)).
Proof.
  intros Hc [[q0 [Hq0 Hi0]] Hnot]. unfold taken.
  destruct (exec_ledger a s) as [->|[[ty [sid H]]|[w H]]].
  - split; [now exists q0 | exact Hnot].
  - unfold insert in H. destruct (violates_request_queue_01 ty sid (ledger s));
      [discriminate|]. injection H as H. rewrite <- H. simpl. split.
    + exists q0. split; [apply in_app_iff; now left | exact Hi0].
    + intros q Hq Hi. apply in_app_iff in Hq as [Hq|[<-|[]]]; [now apply Hnot|].
      simpl in Hi. exfalso.
      pose proof (proj2 (c_primary_key Hc) q0 Hq0). lia.
  - destruct (tx_table H) as [->|[-> _]]; [split; [now exists q0 | exact Hnot]|].
    split.
    + exists (seen_by w (ledger s) q0). split; [now apply in_map|].
      now rewrite seen_by_id.
    + intros q Hq Hi. apply in_visible in Hq as [r0 [Hr0 [-> Hid]]].
      assert (request_status r0 <> new) as Hr0new by (apply Hnot; congruence).
      unfold seen_by.
      destruct (own_version w (request_queue_id r0) (ledger s)) as [v|] eqn:E;
        [|exact Hr0new].
      apply own_version_some in E as [Hv Hvid]. intros Hvnew.
      apply Hr0new. exact (c_new Hc _ _ Hv Hvnew r0 Hr0 (eq_sym Hvid)).
Qed.




End MutualExclusion.

(** ** The pending version a transaction reads back *)

Section PendingVersions.

Lemma find_filter (A : Type) (p f : A -> bool) (l : list A) :
  (forall x, p x = true -> f x = true) -> find p (filter f l) = find p l.
Proof.
  intros H. induction l as [|x l IH]; simpl; [reflexivity|].
  destruct (f x) eqn:F; simpl.
  - destruct (p x); [reflexivity | exact IH].
  - destruct (p x) eqn:P; [|exact IH]. apply H in P. congruence.
Qed.




End PendingVersions.

(** ** What a transaction has pending before it groups *)

Section PendingBeforeGrouping.








End PendingBeforeGrouping.

(** ** The group claim *)

Section GroupClaim.


Lemma search_update_beyond_line t pid line d r' :
  fst (search_update t pid line d) = Some r' -> line < request_queue_id r'.
Proof.
  intros H. destruct (search_update_some _ _ _ _ H) as [q [Hq [-> _]]].
  apply first_by_id_some in Hq as [Hin _].
  apply filter_In in Hin as [_ Hc]. apply candidate_spec in Hc. simpl. tauto.
Qed.


End GroupClaim.

(** ** Death of a back-end *)

Section CrashRecovery.


End CrashRecovery.

(** ** The turns through the table *)

Section Sweeps.

Arguments control : simpl never.

(** Read off the journal of back-end [w]: the line-in-the-sand its
    current turn started from and the number of allocations that went
    through since; [None] when it is not in a turn. *)
Fixpoint current_sweep (w : connection) (j : list (connection * event))
  : option (Z * nat) :=
  match j with
  | [] => None
  | (v, e) :: j' =>
      if Nat.eqb v w then
        match e with
        | SweepStart l => Some (l, 0%nat)
        | Claimed _ =>
            match current_sweep w j' with
            | Some (l, n) => Some (l, S n)
            | None => None
            end
        | Skipped _ | Committed _ => current_sweep w j'
        | WentIdle | Crashed => None
        end
      else current_sweep w j'
  end.

Definition sweep_at (j : list (connection * event)) (c : mode * Z * bool)
  (w : connection) : Prop :=
  let '(m, line, work) := c in
  match m with
  | Offline => True
  | Idle => line = 0
  | Scanning | Validating _ | Grouping _ =>
      exists n, current_sweep w j = Some (0, n) /\ (n = 0%nat <-> work = false)
  | Executing _ => exists n, current_sweep w j = Some (0, S n)
  | Settling _ _ | Committing _ =>
      exists n, current_sweep w j = Some (0, S n) /\ work = true
  end.

Definition sweeps_consistent (s : system) : Prop :=
  forall w, sweep_at (journal s) (control (backends s w)) w.

Lemma current_sweep_others w v evs j :
  v <> w -> current_sweep w (map (pair v) evs ++ j) = current_sweep w j.
Proof.
  intros Hne. induction evs as [|e evs IH]; simpl; [reflexivity|].
  apply Nat.eqb_neq in Hne. now rewrite Hne.
Qed.

Lemma sweep_at_others w v evs j c :
  v <> w -> sweep_at j c w -> sweep_at (map (pair v) evs ++ j) c w.
Proof.
  intros Hne. unfold sweep_at. destruct c as [[m line] work].
  now rewrite current_sweep_others.
Qed.

Lemma sweep_at_own_step w ok b d j :
  sweep_at j (control b) w ->
  sweep_at (map (pair w) (snd (backend_step w ok b d)) ++ j)
           (control (fst (fst (backend_step w ok b d)))) w.
Proof.
  unfold backend_step, control.
  destruct (phase b) as [| | |r|r|r|r o|r] eqn:P; simpl.
  - now rewrite P.
  - now rewrite P.
  - intros [n [Hn Hw]].
    destruct (search_update w (processId b) (line_in_the_sand b) d) as [[r|] d'].
    + destruct (request_type r); simpl.
      * rewrite Nat.eqb_refl, Hn. now exists n.
      * now exists n.
    + destruct (work_performed b) eqn:W; simpl.
      * rewrite P, Nat.eqb_refl. exists 0%nat. now split.
      * reflexivity.
  - intros [n [Hn Hw]].
    destruct (validate_create w (spreadsheet_id r) d); simpl.
    + now exists n.
    + rewrite Nat.eqb_refl. now exists n.
  - intros [n [Hn Hw]].
    destruct (group_update w (processId b) (spreadsheet_id r) d); simpl.
    + rewrite Nat.eqb_refl, Hn. now exists n.
    + rewrite Nat.eqb_refl. now exists n.
  - intros [n Hn]. now exists n.
  - intros [n [Hn Hw]].
    destruct (settle w (processId b) (outcome_status o) d); simpl.
    + now exists n.
    + rewrite P. now exists n.
  - intros [n [Hn Hw]]. rewrite Nat.eqb_refl. exists (S n). split; [exact Hn|].
    rewrite Hw. split; discriminate.
Qed.

Theorem reachable_sweeps_consistent s : reachable s -> sweeps_consistent s.
Proof.
  induction 1 as [|s a Hreach IH]; [intros w; exact I|].
  intros w. specialize (IH w).
  destruct a as [ty sid|v|v pid|v ok|v].
  - cbn [exec]. destruct (insert ty sid (ledger s)) as [d'|]; [|exact IH].
    cbn [notify journal backends]. now rewrite control_deliver.
  - cbn [exec]. destruct (phase (backends s v)) eqn:P; try exact IH.
    rewrite journal_boot, control_boot.
    destruct (Nat.eqb_spec w v) as [->|Hne]; [reflexivity | exact IH].
  - cbn [exec]. destruct (phase (backends s v)) eqn:P; try exact IH.
    destruct (notified (backends s v)); [|exact IH]. cbn [journal backends].
    unfold upd. destruct (Nat.eqb_spec w v) as [->|Hne].
    + unfold control in *. rewrite P in IH. simpl in IH. simpl.
      rewrite Nat.eqb_refl, IH. now exists 0%nat.
    + apply (sweep_at_others [SweepStart (line_in_the_sand (backends s v))]);
        [congruence | exact IH].
  - rewrite exec_run. cbn [journal backends].
    destruct (Nat.eq_dec w v) as [->|Hne].
    + rewrite upd_same. now apply sweep_at_own_step.
    + rewrite upd_other by exact Hne.
      apply sweep_at_others; [congruence | exact IH].
  - cbn [exec]. destruct (phase (backends s v)) eqn:P; try exact IH;
      cbn [journal backends];
      (destruct (Nat.eq_dec w v) as [->|Hne];
       [ rewrite upd_same; exact I
       | rewrite upd_other by exact Hne;
         apply (sweep_at_others [Crashed]); [congruence | exact IH] ]).
Qed.

End Sweeps.

Section SweepController.

Arguments control : simpl never.

Lemma phase_exec_other a s w :
  (forall pid ok, a <> Start w /\ a <> Wake w pid /\ a <> Run w ok /\ a <> Crash w) ->
  phase (backends (exec a s) w) = phase (backends s w).
Proof.
  intros Hne. destruct a as [ty sid|v|v pid|v ok|v].
  - cbn [exec]. destruct (insert ty sid (ledger s)); [|reflexivity].
    cbn [notify backends]. apply phase_control, control_deliver.
  - assert (w <> v) as Hv by (intros ->; now destruct (Hne "" true) as [H _]).
    cbn [exec]. destruct (phase (backends s v)); try reflexivity.
    apply phase_control. rewrite control_boot.
    apply Nat.eqb_neq in Hv. now rewrite Hv.
  - assert (w <> v) as Hv by (intros ->; now destruct (Hne pid true) as [_ [H _]]).
    cbn [exec]. destruct (phase (backends s v)); try reflexivity.
    destruct (notified (backends s v)); [|reflexivity].
    cbn [backends]. now rewrite upd_other.
  - assert (w <> v) as Hv by (intros ->; now destruct (Hne "" ok) as [_ [_ [H _]]]).
    rewrite exec_run. cbn [backends]. now rewrite upd_other.
  - assert (w <> v) as Hv by (intros ->; now destruct (Hne "" true) as [_ [_ [_ H]]]).
    cbn [exec]. destruct (phase (backends s v)); try reflexivity;
      cbn [backends]; now rewrite upd_other.
Qed.

(** C7: a back-end leaves its loop for the idle state only by a searched
    UPDATE that returns nothing, at the end of a turn that started from
    line-in-the-sand [0] and in which no allocation went through; and a
    turn in which some allocation went through ends, when the searched
    UPDATE returns nothing, with the line-in-the-sand back at [0] and a
    new turn begun, not with the idle state. *)
Theorem idle_only_after_a_turn_without_work (s : system) (w : connection) (a : action) :
  reachable s ->
  let b := backends s w in
  let s' := exec a s in
  (phase b <> Offline -> phase b <> Idle -> phase (backends s' w) = Idle ->
     (exists ok, a = Run w ok)
     /\ phase b = Scanning
     /\ current_sweep w (journal s) = Some (0, 0%nat)
     /\ fst (search_update w (processId b) (line_in_the_sand b) (ledger s)) = None
     /\ line_in_the_sand (backends s' w) = 0)
  /\ (forall ok l n,
        a = Run w ok -> phase b = Scanning ->
        fst (search_update w (processId b) (line_in_the_sand b) (ledger s)) = None ->
        current_sweep w (journal s) = Some (l, S n) ->
        phase (backends s' w) = Scanning
        /\ line_in_the_sand (backends s' w) = 0
        /\ current_sweep w (journal s') = Some (0, 0%nat)).
Proof.
  intros Hreach b s'. subst b s'.
  pose proof (reachable_sweeps_consistent Hreach w) as Hsweep.
  unfold control, sweep_at in Hsweep. split.
  - intros Hoff Hidle Hgo.
    destruct a as [ty sid|v|v pid|v ok|v];
      try (destruct (Nat.eq_dec w v) as [<-|Hv];
           [|exfalso; apply Hidle; rewrite <- Hgo; symmetry;
             apply phase_exec_other; intros pid' ok'; repeat split; congruence]).
    + exfalso. apply Hidle. rewrite <- Hgo. symmetry.
      apply phase_exec_other. intros pid' ok'. repeat split; discriminate.
    + exfalso. cbn [exec] in Hgo.
      destruct (phase (backends s w)) eqn:P; try contradiction; congruence.
    + exfalso. cbn [exec] in Hgo.
      destruct (phase (backends s w)) eqn:P; try contradiction; congruence.
    + rewrite exec_run in Hgo. cbn [backends] in Hgo.
      rewrite exec_run. cbn [backends].
      rewrite upd_same in *.
      unfold backend_step in *.
      destruct (phase (backends s w)) as [| | |r|r|r|r o|r] eqn:P; try contradiction.
      * destruct Hsweep as [n [Hn Hw]].
        destruct (search_update w (processId (backends s w))
                    (line_in_the_sand (backends s w)) (ledger s))
          as [[r|] d'] eqn:E.
        { destruct (request_type r); discriminate Hgo. }
        destruct (work_performed (backends s w)) eqn:W.
        { simpl in Hgo. congruence. }
        split; [now exists ok|]. split; [reflexivity|].
        split; [now rewrite Hn, (proj2 Hw eq_refl)|]. now split.
      * destruct (validate_create w (spreadsheet_id r) (ledger s)); discriminate Hgo.
      * destruct (group_update w (processId (backends s w)) (spreadsheet_id r) (ledger s));
          discriminate Hgo.
      * discriminate Hgo.
      * destruct (settle w (processId (backends s w)) (outcome_status o) (ledger s));
          simpl in Hgo; congruence.
      * discriminate Hgo.
    + exfalso. cbn [exec] in Hgo.
      destruct (phase (backends s w)) eqn:P; try contradiction; cbn [backends] in Hgo;
        rewrite upd_same in Hgo; discriminate Hgo.
  - intros ok l n -> P Hnone Hcur. rewrite P in Hsweep.
    destruct Hsweep as [n' [Hn' Hw]]. rewrite Hcur in Hn'.
    injection Hn' as -> <-.
    assert (work_performed (backends s w) = true) as W.
    { destruct (work_performed (backends s w)); [reflexivity|].
      destruct Hw as [_ Hw]. discriminate (Hw eq_refl). }
    rewrite exec_run. cbn [backends journal]. rewrite upd_same.
    unfold backend_step. rewrite P.
    destruct (search_update w (processId (backends s w))
                (line_in_the_sand (backends s w)) (ledger s))
      as [[r|] d']; [discriminate Hnone|].
    rewrite W. simpl. rewrite P, Nat.eqb_refl. now split.
Qed.

End SweepController.

(** ** The sparse unique index over the whole history *)

Section UniqueIndex.

Lemma row_persists_exec a s r :
  consistent (ledger s) -> In r (request_queue (ledger s)) ->
  exists r', In r' (request_queue (ledger (exec a s))) /\ same_request r r'.
Proof.
  intros Hc Hin.
  destruct (exec_ledger a s) as [->|[[ty [sid H]]|[w H]]].
  - exists r. split; [exact Hin | apply same_request_refl].
  - unfold insert in H. destruct (violates_request_queue_01 ty sid (ledger s));
      [discriminate|]. injection H as H. rewrite <- H. simpl.
    exists r. split; [apply in_app_iff; now left | apply same_request_refl].
  - destruct (tx_table H) as [->|[-> _]].
    + exists r. split; [exact Hin | apply same_request_refl].
    + exists (seen_by w (ledger s) r). split; [now apply in_map|].
      apply seen_by_same; [apply Hc | apply Hc | exact Hin].
Qed.

Lemma row_persists_run tr s r :
  reachable s -> In r (request_queue (ledger s)) ->
  exists r', In r' (request_queue (ledger (run tr s))) /\ same_request r r'.
Proof.
  revert s r. induction tr as [|a tr IH]; intros s r Hreach Hin.
  - exists r. split; [exact Hin | apply same_request_refl].
  - destruct (@row_persists_exec a s r (reachable_consistent Hreach) Hin) as [r1 [Hin1 Hs1]].
    destruct (IH (exec a s) r1 (@reachable_exec s a Hreach) Hin1) as [r2 [Hin2 Hs2]].
    exists r2. split; [exact Hin2 | exact (same_request_trans Hs1 Hs2)].
Qed.

(** C10: once a [create] request for a spreadsheet is in the table,
    whatever its status is or becomes, every later INSERT of a [create]
    request for that spreadsheet is a unique violation, and the table
    keeps exactly one [create] row for it. *)
Theorem second_create_refused_forever (s : system) (sid : string) (r : request)
  (tr : list action) :
  reachable s ->
  In r (request_queue (ledger s)) ->
  request_type r = create ->
  spreadsheet_id r = sid ->
  insert create sid (ledger (run tr s)) = None
  /\ exec (Enqueue create sid) (run tr s) = run tr s
  /\ List.length (creates_for sid (ledger (run tr s))) = 1%nat.
Proof.
  intros Hreach Hin Hty Hsid.
  destruct (@row_persists_run tr s r Hreach Hin) as [r' [Hin' [_ [Hty' Hsid']]]].
  assert (in_request_queue_01 sid r' = true) as Hidx.
  { unfold in_request_queue_01. rewrite <- Hty', <- Hsid', Hty, Hsid.
    simpl. apply String.eqb_refl. }
  assert (insert create sid (ledger (run tr s)) = None) as Hins.
  { unfold insert, violates_request_queue_01. simpl.
    replace (existsb (in_request_queue_01 sid) (request_queue (ledger (run tr s))))
      with true; [reflexivity|].
    symmetry. apply existsb_exists. now exists r'. }
  split; [exact Hins|]. split; [simpl; now rewrite Hins|].
  pose proof (c_index (reachable_consistent (@reachable_run tr s Hreach)) sid) as Hle.
  assert (In r' (creates_for sid (ledger (run tr s)))) as Hmem
    by (apply filter_In; now split).
  destruct (creates_for sid (ledger (run tr s))) as [|x l]; [contradiction|].
  simpl in *. lia.
Qed.

End UniqueIndex.

(** ** Runs of the system *)

Section Runs.

(** What a reader of the committed table sees of each row. *)
Definition observe (s : system) : list (Z * rtype * status * option string * option string) :=
  map (fun r => (request_queue_id r, request_type r, request_status r,
                 process_id r, processor_id r))
      (request_queue (ledger s)).





(** The same with one back-end and no death: the [update] request was
    written to the table before the [create] request. *)
Example update_enqueued_first :
  observe (run [ Enqueue update "T"; Enqueue create "T"; Start 0%nat; Wake 0%nat "A";
                 Run 0%nat true; Run 0%nat true; Run 0%nat true;
                 Run 0%nat true; Run 0%nat true; Run 0%nat true ] initial)
  = [ (1, update, complete, Some "A", Some "A"); (2, create, new, None, None) ].
Proof. vm_compute. reflexivity. Qed.






End Runs.

(** ** Priming the pump *)

Section PrimingThePump.

Fixpoint position (c : client_call) (calls : list client_call) : option nat :=
  match calls with
  | [] => None
  | x :: rest =>
      if client_call_eqb x c then Some 0%nat else option_map S (position c rest)
  end.

(** Call [a] is made, and made before call [b], in the program [calls]. *)
Definition precedes (a b : client_call) (calls : list client_call) : bool :=
  match position a calls, position b calls with
  | Some i, Some j => Nat.ltb i j
  | _, _ => false
  end.

(** The start-up in the order the specification words it: the
    self-notification first, the subscription after it.  Kept only to be
    compared with [prime_the_pump]. *)
Definition notify_before_listen : list client_call :=
  [On_notification; Query_NOTIFY; Query_LISTEN].

Lemma backend_after_boot w s :
  backends (boot prime_the_pump w s) w = mkBackend Idle true true true "" 0 false.
Proof.
  unfold boot, prime_the_pump. simpl. unfold deliver, upd. simpl.
  rewrite !Nat.eqb_refl. simpl. reflexivity.
Qed.

Lemma backend_after_notify_before_listen w s :
  backends (boot notify_before_listen w s) w = mkBackend Idle true true false "" 0 false.
Proof.
  unfold boot, notify_before_listen. simpl. unfold deliver, upd. simpl.
  rewrite !Nat.eqb_refl. simpl. reflexivity.
Qed.

(** C9 as worded fails on the start-up code: the NOTIFY does not come
    before the LISTEN. *)
Lemma self_notify_is_not_before_listen :
  precedes Query_NOTIFY Query_LISTEN prime_the_pump = false.
Proof. reflexivity. Qed.

(** C9, as the code has it: a starting back-end first registers its
    handler and executes LISTEN, and only then NOTIFY; the notification
    therefore reaches the back-end itself, whatever was notified while it
    was offline, and its handler starts a turn from line-in-the-sand [0]
    over the table as it stands.  In the other order (NOTIFY, then
    LISTEN) the self-notification would not reach it. *)
Theorem listen_then_self_notify (s : system) (w : connection) (pid : string) :
  phase (backends s w) = Offline ->
  precedes Query_LISTEN Query_NOTIFY prime_the_pump = true
  /\ backends (exec (Start w) s) w = mkBackend Idle true true true "" 0 false
  /\ ledger (exec (Start w) s) = ledger s
  /\ backends (exec (Wake w pid) (exec (Start w) s)) w
     = mkBackend Scanning true true false pid 0 false
  /\ ledger (exec (Wake w pid) (exec (Start w) s)) = ledger s
  /\ notified (backends (boot notify_before_listen w s) w) = false.
Proof.
  intros Hoff.
  assert (exec (Start w) s = boot prime_the_pump w s) as Hstart
    by (cbn [exec]; now rewrite Hoff).
  rewrite Hstart.
  split; [reflexivity|].
  split; [apply backend_after_boot|].
  split; [apply ledger_boot|].
  assert (exec (Wake w pid) (boot prime_the_pump w s)
          = mkSystem (ledger (boot prime_the_pump w s))
              (upd w (mkBackend Scanning true true false pid 0 false)
                   (backends (boot prime_the_pump w s)))
              ((w, SweepStart 0) :: journal (boot prime_the_pump w s))) as Hwake
    by (cbn [exec]; now rewrite backend_after_boot).
  rewrite Hwake. cbn [backends ledger].
  split; [apply upd_same|].
  split; [apply ledger_boot|].
  now rewrite backend_after_notify_before_listen.
Qed.

Lemma listen_then_self_notify_witness :
  phase (backends initial 0%nat) = Offline
  /\ precedes Query_LISTEN Query_NOTIFY prime_the_pump = true
  /\ backends (exec (Start 0%nat) initial) 0%nat = mkBackend Idle true true true "" 0 false
  /\ ledger (exec (Start 0%nat) initial) = ledger initial
  /\ backends (exec (Wake 0%nat "A") (exec (Start 0%nat) initial)) 0%nat
     = mkBackend Scanning true true false "A" 0 false
  /\ ledger (exec (Wake 0%nat "A") (exec (Start 0%nat) initial)) = ledger initial
  /\ notified (backends (boot notify_before_listen 0%nat initial) 0%nat) = false.
Proof.
  split.
  - reflexivity.
  - apply (listen_then_self_notify initial 0%nat "A"). reflexivity.
Defined.

End PrimingThePump.

(** ** The theorems at work on small runs *)

Section Instances.

Lemma reachable_from_initial tr : reachable (run tr initial).
Proof. apply reachable_run. constructor. Defined.




Definition request_2 : request := mkRequest 2 in_progress update (Some "B") None "T".


(** Back-end 0 has taken the [create] request 1 and is creating the
    spreadsheet. *)
Definition creating : system :=
  run [ Enqueue create "T"; Start 0%nat; Start 1%nat; Wake 0%nat "A"; Run 0%nat true ] initial.

Definition request_1 : request := mkRequest 1 in_progress create (Some "A") None "T".


(** A back-end at the end of a turn without work, and one at the end of
    a turn in which it created a spreadsheet. *)
Definition nothing_to_do : system := run [ Start 0%nat; Wake 0%nat "A" ] initial.

Definition created : system :=
  run [ Enqueue create "T"; Start 0%nat; Wake 0%nat "A";
        Run 0%nat true; Run 0%nat true; Run 0%nat true; Run 0%nat true ] initial.

Lemma idle_only_after_a_turn_without_work_witness :
  (reachable nothing_to_do
   /\ phase (backends nothing_to_do 0%nat) = Scanning
   /\ phase (backends (exec (Run 0%nat true) nothing_to_do) 0%nat) = Idle
   /\ current_sweep 0%nat (journal nothing_to_do) = Some (0, 0%nat))
  /\ (reachable created
      /\ current_sweep 0%nat (journal created) = Some (0, 1%nat)
      /\ phase (backends (exec (Run 0%nat true) created) 0%nat) = Scanning
      /\ line_in_the_sand (backends (exec (Run 0%nat true) created) 0%nat) = 0
      /\ current_sweep 0%nat (journal (exec (Run 0%nat true) created)) = Some (0, 0%nat)).
Proof.
  split.
  - destruct (@idle_only_after_a_turn_without_work nothing_to_do 0%nat (Run 0%nat true)
                (reachable_from_initial _)) as [H _].
    destruct H as [_ [_ [H _]]]; try discriminate; try reflexivity.
    split; [apply reachable_from_initial|]. split; [reflexivity|].
    split; [reflexivity | exact H].
  - destruct (@idle_only_after_a_turn_without_work created 0%nat (Run 0%nat true)
                (reachable_from_initial _)) as [_ H].
    split; [apply reachable_from_initial|]. split; [reflexivity|].
    apply (H true 0 0%nat); reflexivity.
Defined.

Definition request_1_complete : request := mkRequest 1 complete create (Some "A") None "T".

Lemma second_create_refused_forever_witness :
  reachable created
  /\ In request_1_complete (request_queue (ledger created))
  /\ request_status request_1_complete = complete
  /\ insert create "T" (ledger (run [Enqueue update "T"] created)) = None
  /\ exec (Enqueue create "T") (run [Enqueue update "T"] created)
     = run [Enqueue update "T"] created
  /\ List.length (creates_for "T" (ledger (run [Enqueue update "T"] created))) = 1%nat.
Proof.
  split; [apply reachable_from_initial|].
  split; [now left|]. split; [reflexivity|].
  apply (@second_create_refused_forever created "T" request_1_complete
           [Enqueue update "T"] (reachable_from_initial _)); [now left | reflexivity | reflexivity].
Defined.

End Instances.

(** * Further properties of the back-end *)

Unset Implicit Arguments.

(** ** Validation of an [update] request *)

Section Validation.

Lemma create_outstanding_spec sid q :
  create_outstanding sid q = true <->
  spreadsheet_id q = sid /\ request_type q = create
  /\ outstanding (request_status q) = true.
Proof.
  unfold create_outstanding. rewrite !andb_true_iff, String.eqb_eq, rtype_eqb_eq. tauto.
Qed.

Lemma locked_elsewhere_reads_committed w d r :
  exclusive d -> locked_by_other w (request_queue_id r) d = true -> seen_by w d r = r.
Proof.
  intros Hex Hl. apply seen_by_unlocked. intros Hw.
  apply locked_by_other_true in Hl as [t' [Hne Ht']].
  apply Hne. exact (Hex _ _ _ Ht' Hw).
Qed.

(** X1: the validation SELECT ... FOR UPDATE NOWAIT raises SQL state
    55P03 exactly when an outstanding [create] row of the spreadsheet is
    locked to another process; a terminal [create] row, or one that
    nobody holds, never makes it raise. *)
Theorem validate_create_raises_iff (w : connection) (sid : string) (d : database) :
  exclusive d ->
  (validate_create w sid d = None <->
   exists r, In r (request_queue d)
             /\ spreadsheet_id r = sid
             /\ request_type r = create
             /\ outstanding (request_status r) = true
             /\ locked_by_other w (request_queue_id r) d = true).
Proof.
  intros Hex. unfold validate_create.
  destruct (existsb (fun r => locked_by_other w (request_queue_id r) d)
                    (filter (create_outstanding sid) (visible w d))) eqn:E.
  - split; [intros _|reflexivity].
    apply existsb_exists in E as [v [Hv Hl]].
    apply filter_In in Hv as [Hv Hc].
    apply in_visible in Hv as [r [Hr [Hseen Hid]]].
    rewrite <- Hid in Hl. rewrite (@locked_elsewhere_reads_committed w d r Hex Hl) in Hseen.
    subst v. apply create_outstanding_spec in Hc. exists r. tauto.
  - split; [discriminate|]. intros [r [Hr [Hsid [Hty [Hout Hl]]]]]. exfalso.
    assert (In r (filter (create_outstanding sid) (visible w d))) as Hin.
    { apply filter_In. split.
      - rewrite <- (@locked_elsewhere_reads_committed w d r Hex Hl). now apply in_map.
      - apply create_outstanding_spec. tauto. }
    pose proof (existsb_false_in _ _ E r Hin) as C. simpl in C. congruence.
Qed.

(** X2: when the validation raises, the back-end rolls back and skips
    the row: the committed table is what it was, nothing is pending for
    the back-end, the [update] request it had taken is committed [new]
    and held by nobody, and the line-in-the-sand is that request's
    identity.  When it does not raise, the back-end goes on to group,
    holding every outstanding [create] row of the spreadsheet it can
    see. *)
Theorem validation_skips_or_proceeds (s : system) (w : connection) (ok : bool)
  (r : request) :
  reachable s ->
  phase (backends s w) = Validating r ->
  let d := ledger s in
  let s' := exec (Run w ok) s in
  match validate_create w (spreadsheet_id r) d with
  | None =>
      request_queue (ledger s') = request_queue d
      /\ (forall q, ~ In (w, q) (uncommitted (ledger s')))
      /\ (exists q, In q (request_queue (ledger s'))
                    /\ request_queue_id q = request_queue_id r
                    /\ request_status q = new)
      /\ (forall v, ~ locked v (request_queue_id r) (ledger s'))
      /\ phase (backends s' w) = Scanning
      /\ line_in_the_sand (backends s' w) = request_queue_id r
  | Some _ =>
      request_queue (ledger s') = request_queue d
      /\ phase (backends s' w) = Grouping r
      /\ line_in_the_sand (backends s' w) = line_in_the_sand (backends s w)
      /\ forall v, In v (visible w d) ->
           create_outstanding (spreadsheet_id r) v = true ->
           locked w (request_queue_id v) (ledger s')
  end.
Proof.
  intros Hreach P d s'.
  pose proof (reachable_claims_consistent Hreach w) as Hclaim.
  pose proof (c_exclusive (reachable_consistent Hreach)) as Hex.
  rewrite P in Hclaim. destruct Hclaim as [Hheld [Hnew _]].
  unfold s'. rewrite exec_run. unfold backend_step. rewrite P. fold d.
  destruct (validate_create w (spreadsheet_id r) d) as [d'|] eqn:E;
    simpl; rewrite upd_same; simpl.
  - unfold validate_create in E. fold d in E.
    destruct (existsb _ _) in E; [discriminate|]. injection E as <-.
    split; [apply request_queue_write_all|]. split; [reflexivity|].
    split; [reflexivity|].
    intros v Hv Hc. apply locked_write_all. left. split; [reflexivity|].
    exists v. split; [|reflexivity]. apply filter_In. now split.
  - split; [reflexivity|].
    split; [intros q Hq; apply in_released in Hq as [_ Hne]; now apply Hne|].
    split; [exact Hnew|].
    split.
    { intros v Hv. apply locked_rollback in Hv as [Hne Hv].
      apply Hne. exact (Hex _ _ _ Hv Hheld). }
    now split.
Qed.

(** X3: no transaction reads the uncommitted change of another: for a
    row locked to [w], every other connection sees the committed
    version. *)
Theorem uncommitted_changes_are_invisible (s : system) (w v : connection) (r : request) :
  reachable s ->
  locked w (request_queue_id r) (ledger s) ->
  v <> w ->
  In r (request_queue (ledger s)) ->
  seen_by v (ledger s) r = r /\ In r (visible v (ledger s)).
Proof.
  intros Hreach Hl Hne Hr.
  assert (seen_by v (ledger s) r = r) as Hseen.
  { pose proof (c_exclusive (reachable_consistent Hreach)) as Hex.
    apply seen_by_unlocked. intros Hv. apply Hne. exact (Hex _ _ _ Hv Hl). }
  split; [exact Hseen|]. rewrite <- Hseen. now apply in_map.
Qed.

End Validation.

(** ** The table as a history log *)

Section HistoryLog.







(** What never changes in a row. *)
Definition request_key (r : request) : Z * rtype * string :=
  (request_queue_id r, request_type r, spreadsheet_id r).

Lemma request_key_same r r' : same_request r r' -> request_key r = request_key r'.
Proof. intros [H1 [H2 H3]]. unfold request_key. congruence. Qed.

Lemma keys_exec a s :
  consistent (ledger s) ->
  exists rest,
    map request_key (request_queue (ledger (exec a s)))
    = (map request_key (request_queue (ledger s)) ++ rest)%list.
Proof.
  intros Hc. destruct (exec_ledger a s) as [->|[[ty [sid H]]|[w H]]].
  - exists []. now rewrite app_nil_r.
  - unfold insert in H. destruct (violates_request_queue_01 ty sid (ledger s));
      [discriminate|]. injection H as H. rewrite <- H. simpl.
    eexists. apply map_app.
  - exists []. rewrite app_nil_r.
    destruct (tx_table H) as [->|[-> _]]; [reflexivity|].
    unfold visible. rewrite map_map. apply map_ext_in. intros r Hr.
    symmetry. apply request_key_same. apply seen_by_same; [apply Hc | apply Hc | exact Hr].
Qed.

(** X5: the table is an append-only log of requests: along every run the
    rows keep their place, identity, type and spreadsheet, and new rows
    are only added at the end; no request is ever lost, whatever the
    back-ends do and whenever they die. *)
Theorem requests_are_never_lost (s : system) (tr : list action) :
  reachable s ->
  exists rest,
    map request_key (request_queue (ledger (run tr s)))
    = (map request_key (request_queue (ledger s)) ++ rest)%list.
Proof.
  revert s. induction tr as [|a tr IH]; intros s Hreach.
  - exists []. now rewrite app_nil_r.
  - destruct (@keys_exec a s (reachable_consistent Hreach)) as [r1 H1].
    destruct (IH (exec a s) (@reachable_exec s a Hreach)) as [r2 H2].
    exists (r1 ++ r2)%list. simpl. rewrite H2, H1. now rewrite app_assoc.
Qed.

(** X6: a row that is committed with a status other than [new] is never
    committed [new] again: no run brings a request back to the state in
    which the searched UPDATE would take it. *)
Theorem committed_status_never_returns_to_new (s : system) (i : Z) (tr : list action) :
  reachable s ->
  taken i (ledger s) ->
  taken i (ledger (run tr s))
  /\ forall w pid line r',
       fst (search_update w pid line (ledger (run tr s))) = Some r' ->
       request_queue_id r' <> i.
Proof.
  intros Hreach Htaken.
  assert (taken i (ledger (run tr s))) as Hrun.
  { revert s Hreach Htaken. induction tr as [|a tr IH]; intros s Hreach Htaken;
      [exact Htaken|].
    simpl. apply IH; [now constructor|].
    apply taken_exec; [now apply reachable_consistent | exact Htaken]. }
  split; [exact Hrun|].
  intros w pid line r' Hr' Heq.
  pose proof (reachable_consistent (@reachable_run tr s Hreach)) as Hc.
  destruct (search_update_some _ _ _ _ Hr') as [q [Hq [-> _]]].
  apply first_by_id_some in Hq as [Hin _].
  apply filter_In in Hin as [Hvis Hcand]. apply candidate_spec in Hcand as [Hnew _].
  apply in_visible in Hvis as [q0 [Hq0 [Hseen Hid]]].
  simpl in Heq. destruct Hrun as [_ Hnot].
  apply (Hnot q0 Hq0); [congruence|].
  unfold seen_by in Hseen.
  destruct (own_version w (request_queue_id q0) (ledger (run tr s))) as [v|] eqn:E;
    [|congruence].
  subst v. apply own_version_some in E as [Hv Hvid].
  exact (c_new Hc _ _ Hv Hnew q0 Hq0 (eq_sym Hvid)).
Qed.

End HistoryLog.

(** ** What the UPDATE statements write *)

Section Footprints.






(** X9: a [create] request needs no validation and no grouping: when
    the searched UPDATE of a back-end returns one, the back-end goes
    straight on to create the spreadsheet, and that single row is all
    its transaction holds. *)
Theorem create_request_is_allocated_alone (s : system) (w : connection) (ok : bool)
  (r' : request) :
  reachable s ->
  phase (backends s w) = Scanning ->
  fst (search_update w (processId (backends s w))
         (line_in_the_sand (backends s w)) (ledger s)) = Some r' ->
  request_type r' = create ->
  let s' := exec (Run w ok) s in
  phase (backends s' w) = Executing r'
  /\ request_queue (ledger s') = request_queue (ledger s)
  /\ (forall q, In (w, q) (uncommitted (ledger s')) <-> q = r')
  /\ request_status r' = in_progress
  /\ process_id r' = Some (processId (backends s w)).
Proof.
  intros Hreach P Hr' Hty s'.
  pose proof (reachable_claims_consistent Hreach w) as Hfresh.
  rewrite P in Hfresh. unfold claim_at in Hfresh. simpl in Hfresh.
  destruct (search_update_some _ _ _ _ Hr') as [r [_ [Hmark Hd']]].
  unfold s'. rewrite exec_run. unfold backend_step. rewrite P.
  destruct (search_update w (processId (backends s w))
              (line_in_the_sand (backends s w)) (ledger s)) as [[x|] dx] eqn:E;
    simpl in Hr'; [|discriminate].
  injection Hr' as ->. simpl in Hd'. subst dx. rewrite Hty. simpl.
  rewrite upd_same. simpl. split; [reflexivity|]. split; [reflexivity|].
  split; [|now subst r'].
  intros q. split.
  - intros [H|Hold]; [congruence|].
    apply filter_In in Hold as [Hold _].
    exfalso. apply (Hfresh (request_queue_id q)). now exists q.
  - intros ->. now left.
Qed.

End Footprints.

(** ** The line-in-the-sand *)

Section LineInTheSand.

Arguments control : simpl never.

(** The back-end that acts in a step; the front-end is nobody. *)
Definition actor (a : action) : option connection :=
  match a with
  | Enqueue _ _ => None
  | Start w | Wake w _ | Run w _ | Crash w => Some w
  end.

Lemma control_exec_other a s w :
  actor a <> Some w -> control (backends (exec a s) w) = control (backends s w).
Proof.
  destruct a as [ty sid|v|v pid|v ok|v]; simpl actor; intros Hne;
    try (assert (w <> v) as Hv by congruence).
  - cbn [exec]. destruct (insert ty sid (ledger s)); [|reflexivity].
    cbn [notify backends]. apply control_deliver.
  - cbn [exec]. destruct (phase (backends s v)); try reflexivity.
    rewrite control_boot. apply Nat.eqb_neq in Hv. now rewrite Hv.
  - cbn [exec]. destruct (phase (backends s v)); try reflexivity.
    destruct (notified (backends s v)); [|reflexivity].
    cbn [backends]. now rewrite upd_other.
  - rewrite exec_run. cbn [backends]. now rewrite upd_other.
  - cbn [exec]. destruct (phase (backends s v)); try reflexivity;
      cbn [backends]; now rewrite upd_other.
Qed.

(** The line is never negative and lies below the request in hand. *)
Definition line_at (c : mode * Z * bool) : Prop :=
  0 <= snd (fst c)
  /\ forall r, claimed_request (fst (fst c)) = Some r ->
               snd (fst c) < request_queue_id r.

Lemma line_at_own_step w ok b d :
  line_at (control b) -> line_at (control (fst (fst (backend_step w ok b d)))).
Proof.
  unfold line_at, control, backend_step. simpl. intros [H0 Hr].
  destruct (phase b) as [| | |r|r|r|r o|r] eqn:P; simpl.
  - rewrite P. split; [exact H0 | discriminate].
  - rewrite P. split; [exact H0 | discriminate].
  - destruct (search_update w (processId b) (line_in_the_sand b) d) as [[r|] d'] eqn:E.
    + assert (line_in_the_sand b < request_queue_id r) as Hlt.
      { apply (search_update_beyond_line w (processId b) _ d). now rewrite E. }
      destruct (request_type r); simpl; (split; [exact H0|]);
        intros x Hx; injection Hx as <-; exact Hlt.
    + destruct (work_performed b); simpl; [rewrite P|]; (split; [lia | discriminate]).
  - specialize (Hr r eq_refl).
    destruct (validate_create w (spreadsheet_id r) d); simpl.
    + split; [exact H0|]. intros x Hx. injection Hx as <-. exact Hr.
    + split; [lia | discriminate].
  - specialize (Hr r eq_refl).
    destruct (group_update w (processId b) (spreadsheet_id r) d); simpl.
    + split; [exact H0|]. intros x Hx. injection Hx as <-. exact Hr.
    + split; [lia | discriminate].
  - specialize (Hr r eq_refl). split; [exact H0|].
    intros x Hx. injection Hx as <-. exact Hr.
  - specialize (Hr r eq_refl).
    destruct (settle w (processId b) (outcome_status o) d); simpl.
    + split; [exact H0|]. intros x Hx. injection Hx as <-. exact Hr.
    + rewrite P. split; [exact H0|]. intros x Hx. injection Hx as <-. exact Hr.
  - specialize (Hr r eq_refl). split; [lia | discriminate].
Qed.

Lemma reachable_line_at s w : reachable s -> line_at (control (backends s w)).
Proof.
  induction 1 as [|s a Hreach IH]; [split; [simpl; lia | discriminate]|].
  destruct (option_map (Nat.eqb w) (actor a)) as [[|]|] eqn:A.
  - destruct a as [ty sid|v|v pid|v ok|v]; simpl in A; try discriminate;
      injection A as A; apply Nat.eqb_eq in A; subst v.
    + cbn [exec]. destruct (phase (backends s w)) eqn:P; try exact IH.
      rewrite control_boot, Nat.eqb_refl. split; [simpl; lia | discriminate].
    + cbn [exec]. destruct (phase (backends s w)) eqn:P; try exact IH.
      destruct (notified (backends s w)); [|exact IH].
      cbn [backends]. rewrite upd_same. destruct IH as [H0 _].
      split; [exact H0 | discriminate].
    + rewrite exec_run. cbn [backends]. rewrite upd_same.
      now apply line_at_own_step.
    + cbn [exec]. destruct (phase (backends s w)) eqn:P; try exact IH;
        cbn [backends]; rewrite upd_same; (split; [simpl; lia | discriminate]).
  - rewrite control_exec_other; [exact IH|].
    destruct (actor a) as [v|]; [|discriminate]. simpl in A. injection A as A.
    apply Nat.eqb_neq in A. congruence.
  - rewrite control_exec_other; [exact IH|]. destruct (actor a); discriminate.
Qed.

(** X10: the line-in-the-sand of a back-end is never negative and
    always lies below the request it has in hand; one statement of the
    back-end either leaves it, or moves it forward to the identity of
    the request just skipped or committed, or, when the searched UPDATE
    returns nothing, puts it back to [0].  So within one turn a
    back-end never looks at a request twice. *)
Theorem line_in_the_sand_moves_forward (s : system) (w : connection) (ok : bool) :
  reachable s ->
  let b := backends s w in
  let b' := backends (exec (Run w ok) s) w in
  0 <= line_in_the_sand b
  /\ (forall r, claimed_request (phase b) = Some r ->
        line_in_the_sand b < request_queue_id r)
  /\ (line_in_the_sand b' = line_in_the_sand b
      \/ (exists r, claimed_request (phase b) = Some r
                    /\ line_in_the_sand b' = request_queue_id r
                    /\ line_in_the_sand b < line_in_the_sand b')
      \/ (phase b = Scanning
          /\ fst (search_update w (processId b) (line_in_the_sand b) (ledger s)) = None
          /\ line_in_the_sand b' = 0)).
Proof.
  intros Hreach b b'. destruct (reachable_line_at s w Hreach) as [H0 Hr].
  unfold control in H0, Hr. simpl in H0, Hr. fold b in H0, Hr.
  split; [exact H0|]. split; [exact Hr|].
  unfold b'. rewrite exec_run. cbn [backends]. rewrite upd_same. fold b.
  unfold backend_step.
  destruct (phase b) as [| | |r|r|r|r o|r] eqn:P; simpl; try (now left).
  - destruct (search_update w (processId b) (line_in_the_sand b) (ledger s))
      as [[r|] d'] eqn:E.
    + destruct (request_type r); now left.
    + right. right. destruct (work_performed b); now repeat split.
  - destruct (validate_create w (spreadsheet_id r) (ledger s)); simpl; [now left|].
    right. left. exists r. specialize (Hr r eq_refl). now repeat split.
  - destruct (group_update w (processId b) (spreadsheet_id r) (ledger s)); simpl;
      [now left|].
    right. left. exists r. specialize (Hr r eq_refl). now repeat split.
  - destruct (settle w (processId b) (outcome_status o) (ledger s)); now left.
  - right. left. exists r. specialize (Hr r eq_refl). now repeat split.
Qed.

End LineInTheSand.

(** ** Locks and the end of a transaction *)

Section EndOfTransaction.

Lemma filter_idem (A : Type) (f : A -> bool) (l : list A) :
  filter f (filter f l) = filter f l.
Proof.
  induction l as [|x l IH]; simpl; [reflexivity|].
  destruct (f x) eqn:F; simpl; [rewrite F; f_equal|]; exact IH.
Qed.

Lemma own_version_released_other w v i d :
  v <> w -> own_version v i (rollback w d) = own_version v i d.
Proof.
  intros Hne. unfold own_version, rollback. simpl. f_equal.
  apply find_filter. intros [t x] Hh. unfold holds in Hh. simpl in *.
  apply andb_true_iff in Hh as [Ht _]. apply Nat.eqb_eq in Ht. subst t.
  apply negb_true_iff, Nat.eqb_neq. exact Hne.
Qed.

(** X25: a back-end holds row locks only while it has a request in
    hand.  Offline, idle or about to search, it has no pending row, so
    it never makes a statement of another back-end skip, wait or fail;
    with a request in hand it holds the lock on that request, and no
    searched UPDATE of another back-end returns the request, from any
    line-in-the-sand. *)
Theorem locks_follow_the_request_in_hand (s : system) (w : connection) :
  reachable s ->
  match claimed_request (phase (backends s w)) with
  | None => forall q, ~ In (w, q) (uncommitted (ledger s))
  | Some r =>
      locked w (request_queue_id r) (ledger s)
      /\ forall v pid line r', v <> w ->
           fst (search_update v pid line (ledger s)) = Some r' ->
           request_queue_id r' <> request_queue_id r
  end.
Proof.
  intros Hreach. pose proof (reachable_claims_consistent Hreach w) as Hc.
  unfold claim_at in Hc. destruct (claimed_request (phase (backends s w))) as [r|].
  - destruct Hc as [Hl _]. split; [exact Hl|].
    intros v pid line r' Hne Hs Hid.
    destruct (search_update_some _ _ _ _ Hs) as [q [Hq [-> _]]].
    apply first_by_id_some in Hq as [Hin _].
    apply filter_In in Hin as [_ Hcand]. apply candidate_spec in Hcand as [_ [_ Hfree]].
    simpl in Hid. rewrite Hid in Hfree.
    apply Hne. symmetry. exact (proj1 (locked_by_other_false _ _ _) Hfree w Hl).
  - intros q Hin. apply (Hc (request_queue_id q)). exists q. now split.
Qed.

(** X26: COMMIT and ROLLBACK end the transaction.  After either one the
    transaction holds no lock; COMMIT makes the committed table what the
    transaction saw, and the transaction sees the same rows after it as
    before; ROLLBACK leaves the committed table and what every other
    transaction sees as they were; and a ROLLBACK after a COMMIT, or a
    COMMIT after a ROLLBACK, changes nothing. *)
Theorem commit_and_rollback_end_the_transaction (w : connection) (d : database) :
  (forall i, ~ locked w i (commit w d))
  /\ (forall i, ~ locked w i (rollback w d))
  /\ visible w (commit w d) = visible w d
  /\ visible w (rollback w d) = request_queue d
  /\ (forall v, v <> w -> visible v (rollback w d) = visible v d)
  /\ rollback w (commit w d) = commit w d
  /\ commit w (rollback w d) = rollback w d.
Proof.
  assert (forall i, ~ locked w i (commit w d)) as Hc
    by (intros i H; apply locked_commit in H as [H _]; now apply H).
  assert (forall i, ~ locked w i (rollback w d)) as Hr
    by (intros i H; apply locked_rollback in H as [H _]; now apply H).
  split; [exact Hc|]. split; [exact Hr|].
  split; [exact (visible_no_locks Hc)|].
  split; [exact (visible_no_locks Hr)|].
  split.
  { intros v Hne. unfold visible. apply map_ext. intros r. unfold seen_by.
    now rewrite own_version_released_other. }
  split.
  - unfold rollback, commit. simpl. now rewrite filter_idem.
  - unfold commit at 1. rewrite (visible_no_locks Hr).
    unfold rollback. simpl. now rewrite filter_idem.
Qed.

End EndOfTransaction.

(** ** Instances of the further properties *)

Section FurtherInstances.

(** Back-end 0 is creating spreadsheet "T"; back-end 1 has taken the
    [update] request 2 of "T" and is about to validate it. *)
Definition validating_contended : system :=
  run [ Enqueue create "T"; Enqueue update "T";
        Start 0%nat; Start 1%nat; Wake 0%nat "A"; Wake 1%nat "B";
        Run 0%nat true; Run 1%nat true ] initial.

Definition request_1_new : request := mkRequest 1 new create None None "T".

Lemma validate_create_raises_iff_witness :
  exclusive (ledger validating_contended)
  /\ validate_create 1%nat "T" (ledger validating_contended) = None
  /\ exists r, In r (request_queue (ledger validating_contended))
               /\ spreadsheet_id r = "T"
               /\ request_type r = create
               /\ outstanding (request_status r) = true
               /\ locked_by_other 1%nat (request_queue_id r) (ledger validating_contended) = true.
Proof.
  assert (exclusive (ledger validating_contended)) as Hex
    by exact (c_exclusive (reachable_consistent (reachable_from_initial _))).
  split; [exact Hex|]. split; [reflexivity|].
  apply (validate_create_raises_iff 1%nat "T" (ledger validating_contended) Hex).
  reflexivity.
Defined.

Lemma validation_skips_or_proceeds_witness :
  reachable validating_contended
  /\ phase (backends validating_contended 1%nat) = Validating request_2
  /\ validate_create 1%nat (spreadsheet_id request_2) (ledger validating_contended) = None
  /\ request_queue (ledger (exec (Run 1%nat true) validating_contended))
     = request_queue (ledger validating_contended)
  /\ phase (backends (exec (Run 1%nat true) validating_contended) 1%nat) = Scanning
  /\ line_in_the_sand (backends (exec (Run 1%nat true) validating_contended) 1%nat) = 2.
Proof.
  assert (validate_create 1%nat (spreadsheet_id request_2) (ledger validating_contended)
          = None) as E by reflexivity.
  pose proof (validation_skips_or_proceeds validating_contended 1%nat true request_2
                (reachable_from_initial _) eq_refl) as H.
  cbv zeta in H. rewrite E in H.
  destruct H as [H1 [_ [_ [_ [H5 H6]]]]].
  split; [apply reachable_from_initial|]. split; [reflexivity|].
  split; [exact E|]. split; [exact H1|]. split; [exact H5 | exact H6].
Defined.

Lemma uncommitted_changes_are_invisible_witness :
  reachable creating
  /\ locked 0%nat (request_queue_id request_1_new) (ledger creating)
  /\ 1%nat <> 0%nat
  /\ In request_1_new (request_queue (ledger creating))
  /\ seen_by 1%nat (ledger creating) request_1_new = request_1_new
  /\ In request_1_new (visible 1%nat (ledger creating)).
Proof.
  assert (locked 0%nat (request_queue_id request_1_new) (ledger creating)) as Hl.
  { exists request_1. split; [now left | reflexivity]. }
  assert (In request_1_new (request_queue (ledger creating))) as Hin by now left.
  split; [apply reachable_from_initial|]. split; [exact Hl|].
  split; [discriminate|]. split; [exact Hin|].
  apply (uncommitted_changes_are_invisible creating 0%nat 1%nat request_1_new
           (reachable_from_initial _) Hl); [discriminate | exact Hin].
Defined.

(** A back-end died while it was creating "T", and two more requests
    came in. *)
Definition abandoned : list action :=
  [ Crash 0%nat; Enqueue update "T"; Enqueue create "U" ].


Lemma requests_are_never_lost_witness :
  reachable creating
  /\ exists rest,
       map request_key (request_queue (ledger (run abandoned creating)))
       = (map request_key (request_queue (ledger creating)) ++ rest)%list.
Proof.
  split; [apply reachable_from_initial|].
  apply (requests_are_never_lost creating abandoned (reachable_from_initial _)).
Defined.

(** After the spreadsheet was created: another request, another
    back-end, a crash. *)
Definition aftermath : list action :=
  [ Enqueue update "T"; Start 1%nat; Wake 1%nat "B"; Run 1%nat true; Crash 1%nat;
    Wake 0%nat "C"; Run 0%nat true ].

Lemma committed_status_never_returns_to_new_witness :
  reachable created
  /\ taken 1 (ledger created)
  /\ taken 1 (ledger (run aftermath created))
  /\ forall w pid line r',
       fst (search_update w pid line (ledger (run aftermath created))) = Some r' ->
       request_queue_id r' <> 1.
Proof.
  assert (taken 1 (ledger created)) as Ht.
  { split.
    - exists request_1_complete. split; [now left | reflexivity].
    - intros q [<-|[]] _. discriminate. }
  split; [apply reachable_from_initial|]. split; [exact Ht|].
  apply (committed_status_never_returns_to_new created 1 aftermath
           (reachable_from_initial _) Ht).
Defined.





(** A back-end awake, about to search; a [create] request is waiting. *)
Definition about_to_create : system :=
  run [ Enqueue create "T"; Start 0%nat; Wake 0%nat "A" ] initial.

Lemma create_request_is_allocated_alone_witness :
  reachable about_to_create
  /\ phase (backends about_to_create 0%nat) = Scanning
  /\ fst (search_update 0%nat (processId (backends about_to_create 0%nat))
            (line_in_the_sand (backends about_to_create 0%nat)) (ledger about_to_create))
     = Some request_1
  /\ request_type request_1 = create
  /\ phase (backends (exec (Run 0%nat true) about_to_create) 0%nat) = Executing request_1
  /\ forall q, In (0%nat, q) (uncommitted (ledger (exec (Run 0%nat true) about_to_create)))
               <-> q = request_1.
Proof.
  split; [apply reachable_from_initial|]. split; [reflexivity|].
  split; [reflexivity|]. split; [reflexivity|].
  destruct (create_request_is_allocated_alone about_to_create 0%nat true request_1
              (reachable_from_initial _) eq_refl eq_refl eq_refl) as [H1 [_ [H3 _]]].
  split; [exact H1 | exact H3].
Defined.

Lemma line_in_the_sand_moves_forward_witness :
  reachable validating_contended
  /\ 0 <= line_in_the_sand (backends validating_contended 1%nat)
  /\ (forall r, claimed_request (phase (backends validating_contended 1%nat)) = Some r ->
        line_in_the_sand (backends validating_contended 1%nat) < request_queue_id r)
  /\ line_in_the_sand (backends (exec (Run 1%nat true) validating_contended) 1%nat) = 2.
Proof.
  destruct (line_in_the_sand_moves_forward validating_contended 1%nat true
              (reachable_from_initial _)) as [H1 [H2 _]].
  split; [apply reachable_from_initial|]. split; [exact H1|].
  split; [exact H2 | reflexivity].
Defined.

Lemma locks_follow_the_request_in_hand_witness :
  reachable creating
  /\ claimed_request (phase (backends creating 0%nat)) = Some request_1
  /\ claimed_request (phase (backends creating 1%nat)) = None
  /\ locked 0%nat 1 (ledger creating)
  /\ (forall v pid line r', v <> 0%nat ->
        fst (search_update v pid line (ledger creating)) = Some r' ->
        request_queue_id r' <> 1)
  /\ (forall q, ~ In (1%nat, q) (uncommitted (ledger creating))).
Proof.
  assert (claimed_request (phase (backends creating 0%nat)) = Some request_1) as E0
    by reflexivity.
  assert (claimed_request (phase (backends creating 1%nat)) = None) as E1
    by reflexivity.
  pose proof (locks_follow_the_request_in_hand creating 0%nat (reachable_from_initial _))
    as H0.
  pose proof (locks_follow_the_request_in_hand creating 1%nat (reachable_from_initial _))
    as H1.
  rewrite E0 in H0. rewrite E1 in H1. destruct H0 as [Hl Hs].
  split; [apply reachable_from_initial|]. split; [exact E0|]. split; [exact E1|].
  split; [exact Hl|]. split; [exact Hs | exact H1].
Defined.

End FurtherInstances.

(** * A ticket lock on DynamoDB

    The second design of the repository, "Distributed Locking in
    DynamoDB": processes take a number from an atomic counter, enter a
    queue with a row whose sort key carries the number, poll the queue
    until their row is the first one that has not expired, keep the row
    alive with a heartbeat and delete it when done. *)

From Stdlib Require Import Ascii NArith QArith Lqa Sorted.

Module TicketLock.

Local Open Scope N_scope.

(** ** Taking a number *)

















(** ** The sort key of a queue row *)

Definition digit (n : N) : ascii := ascii_of_N (48 + n).

(** [ticketNumber.toString()]: the decimal digits, no leading zero, as a
    BigInt renders them at any size and a number below 2^53 does. *)
Fixpoint toString_fuel (fuel : nat) (n : N) : string :=
  match fuel with
  | O => ""
  | S f =>
      if n <? 10 then String (digit n) ""
      else toString_fuel f (n / 10) ++ String (digit (n mod 10)) ""
  end.

Definition toString (n : N) : string :=
  toString_fuel (S (N.to_nat (N.log2 n))) n.

Fixpoint repeat_char (c : ascii) (k : nat) : string :=
  match k with
  | O => ""
  | S k' => String c (repeat_char c k')
  end.

(** [s.padStart(targetLength, c)]: [s] itself when it is long enough. *)
Definition padStart (targetLength : nat) (c : ascii) (s : string) : string :=
  repeat_char c (targetLength - String.length s) ++ s.

(** sk: `locked-for-some-reason/${ticketNumber.toString().padStart(38, '0')}` *)
Definition sort_key (namespace : string) (ticketNumber : N) : string :=
  namespace ++ padStart 38 "0" (toString ticketNumber).

Example sort_key_7 :
  sort_key "locked-for-some-reason/" 7
  = "locked-for-some-reason/00000000000000000000000000000000000007".
Proof. reflexivity. Qed.















(** *** Lexicographic order of the sort keys *)









(** Beyond 38 digits the padding no longer helps: the larger number
    sorts first. *)
Example sort_key_beyond_38_digits :
  String.ltb (sort_key "q/" (10 ^ 38)) (sort_key "q/" (2 * 10 ^ 37)) = true.
Proof. vm_compute. reflexivity. Qed.

(** ** Checking the position in the queue *)

(** A queue row.  Times are seconds as [Date.now() / 1000] gives them,
    taken as exact rationals. *)
Record lock_row : Type := mkLock {
  pk : string;
  sk : string;
  createdAt : Q;
  expiresAt : Q
}.

(** entry.expiresAt < now *)
Definition expired (now : Q) (entry : lock_row) : bool :=
  negb (Qle_bool now (expiresAt entry)).

Lemma expired_spec now entry : expired now entry = true <-> (expiresAt entry < now)%Q.
Proof.
  unfold expired. rewrite negb_true_iff. split.
  - intros H. apply Qnot_le_lt. intros C. apply Qle_bool_iff in C. congruence.
  - intros H. destruct (Qle_bool now (expiresAt entry)) eqn:E; [|reflexivity].
    apply Qle_bool_iff in E. exfalso. exact (Qlt_not_le _ _ H E).
Qed.

(** The [for (const entry of page)] loop: [Some true] and [Some false]
    are the two [return]s, [None] is the end of the page;
    [expiredLocks] collects what was pushed. *)
Fixpoint scan_page (own : string) (now : Q) (page expiredLocks : list lock_row)
  : option bool * list lock_row :=
  match page with
  | [] => (None, expiredLocks)
  | entry :: rest =>
      if expired now entry then scan_page own now rest (expiredLocks ++ [entry])%list
      else if String.eqb (sk entry) own then (Some true, expiredLocks)
      else (Some false, expiredLocks)
  end.

(** The [do ... while (resumeAfter)] loop over the pages the query
    returns, in order; [None] is falling out of the loop. *)
Fixpoint check_pages (own : string) (now : Q) (pages : list (list lock_row))
  (expiredLocks : list lock_row) : option bool * list lock_row :=
  match pages with
  | [] => (None, expiredLocks)
  | page :: more =>
      match scan_page own now page expiredLocks with
      | (Some answer, captured) => (Some answer, captured)
      | (None, captured) => check_pages own now more captured
      end
  end.

Definition check_queue (own : string) (now : Q) (first : list lock_row)
  (more : list (list lock_row)) : option bool * list lock_row :=
  check_pages own now (first :: more) [].

Definition live (now : Q) (entry : lock_row) : bool := negb (expired now entry).

(** The expired rows at the head of the queue. *)
Fixpoint expired_head (now : Q) (queue : list lock_row) : list lock_row :=
  match queue with
  | [] => []
  | entry :: rest => if expired now entry then entry :: expired_head now rest else []
  end.

Lemma scan_page_spec own now page acc :
  scan_page own now page acc
  = (option_map (fun e => String.eqb (sk e) own) (find (live now) page),
     (acc ++ expired_head now page)%list).
Proof.
  revert acc. induction page as [|e page IH]; intros acc; simpl.
  - now rewrite app_nil_r.
  - unfold live at 1. destruct (expired now e); simpl.
    + rewrite IH. now rewrite <- app_assoc.
    + rewrite app_nil_r. now destruct (String.eqb (sk e) own).
Qed.

Lemma find_app_none (A : Type) (f : A -> bool) (l1 l2 : list A) :
  find f l1 = None -> find f (l1 ++ l2) = find f l2.
Proof.
  induction l1 as [|x l1 IH]; simpl; [reflexivity|].
  destruct (f x); [discriminate | exact IH].
Qed.

Lemma find_app_some (A : Type) (f : A -> bool) (l1 l2 : list A) x :
  find f l1 = Some x -> find f (l1 ++ l2) = Some x.
Proof.
  induction l1 as [|y l1 IH]; simpl; [discriminate|].
  destruct (f y); [exact (fun H => H) | exact IH].
Qed.

Lemma expired_head_app_none now l1 l2 :
  find (live now) l1 = None ->
  expired_head now (l1 ++ l2) = (l1 ++ expired_head now l2)%list.
Proof.
  induction l1 as [|x l1 IH]; simpl; [reflexivity|].
  unfold live at 1. destruct (expired now x); simpl; [|discriminate].
  intros H. now rewrite IH.
Qed.

Lemma expired_head_app_some now l1 l2 x :
  find (live now) l1 = Some x ->
  expired_head now (l1 ++ l2) = expired_head now l1.
Proof.
  induction l1 as [|y l1 IH]; simpl; [discriminate|].
  unfold live at 1. destruct (expired now y); simpl; [|reflexivity].
  intros H. now rewrite IH.
Qed.

Lemma expired_head_all now l :
  find (live now) l = None -> expired_head now l = l.
Proof.
  intros H. rewrite <- (app_nil_r l) at 1.
  rewrite expired_head_app_none by exact H. simpl. apply app_nil_r.
Qed.

Lemma check_pages_spec own now pages acc :
  check_pages own now pages acc
  = (option_map (fun e => String.eqb (sk e) own)
       (find (live now) (List.concat pages)),
     (acc ++ expired_head now (List.concat pages))%list).
Proof.
  revert acc. induction pages as [|page pages IH]; intros acc; simpl.
  - now rewrite app_nil_r.
  - rewrite scan_page_spec.
    destruct (find (live now) page) as [e|] eqn:E; simpl.
    + now rewrite (find_app_some _ _ _ _ _ E), (expired_head_app_some _ _ _ _ E).
    + rewrite IH, (find_app_none _ _ _ _ E), (expired_head_app_none _ _ _ E).
      rewrite (expired_head_all _ _ E). now rewrite app_assoc.
Qed.

(** X13: the queue check depends only on the rows in query order, not
    on how the query cut them into pages: it answers with the first row
    that has not expired ([true] when that row is the caller's, [false]
    when it is somebody else's), it falls out of the loop without an
    answer when every row has expired or there is none, and it has then
    captured exactly the expired rows in front of the answering row. *)
Theorem check_queue_answers_with_first_live_row (own : string) (now : Q)
  (first : list lock_row) (more : list (list lock_row)) :
  check_queue own now first more
  = (option_map (fun e => String.eqb (sk e) own)
       (find (live now) (List.concat (first :: more))),
     expired_head now (List.concat (first :: more))).
Proof. unfold check_queue. now rewrite check_pages_spec. Qed.

(** X14: on one reading of the queue, at most one sort key is told it
    is at the front: if the check answers [true] for one key it answers
    [false] for every other key. *)
Theorem at_most_one_key_at_the_front (own other : string) (now : Q)
  (first : list lock_row) (more : list (list lock_row)) :
  own <> other ->
  fst (check_queue own now first more) = Some true ->
  fst (check_queue other now first more) = Some false.
Proof.
  intros Hne. unfold check_queue. rewrite !check_pages_spec. cbn [fst].
  destruct (find (live now) (List.concat (first :: more))) as [e|]; simpl;
    [|discriminate].
  intros H. injection H as H. apply String.eqb_eq in H.
  f_equal. apply String.eqb_neq. congruence.
Qed.

(** *** First in, first out *)





(** ** The queue rows: put, heartbeat, delete *)

Local Open Scope Q_scope.

Definition same_key (p s : string) (row : lock_row) : bool :=
  String.eqb (pk row) p && String.eqb (sk row) s.

(** client.put with ConditionExpression 'attribute_not_exists(pk)' and
    Item [{ createdAt: now, expiresAt: now + 60, pk, sk }]. *)
Definition put_lock (now : Q) (p s : string) (table : list lock_row)
  : option (list lock_row) :=
  if existsb (same_key p s) table then None
  else Some (mkLock p s now (now + 60) :: table).

(** client.update with ConditionExpression 'attribute_exists(pk)' and
    UpdateExpression 'SET expiresAt = :expiresAt', where
    ':expiresAt' is [Date.now() / 1000 + 60]. *)
Definition heartbeat (now : Q) (p s : string) (table : list lock_row)
  : option (list lock_row) :=
  if existsb (same_key p s) table
  then Some (map (fun row =>
                    if same_key p s row
                    then mkLock (pk row) (sk row) (createdAt row) (now + 60)
                    else row) table)
  else None.

(** client.delete with that Key. *)
Definition delete_lock (p s : string) (table : list lock_row) : list lock_row :=
  filter (fun row => negb (same_key p s row)) table.

Lemma alive_until now later row :
  expiresAt row == now + 60 -> later <= now + 60 -> expired later row = false.
Proof.
  intros He Hl. destruct (expired later row) eqn:E; [|reflexivity].
  apply expired_spec in E. rewrite He in E. exfalso. exact (Qlt_not_le _ _ E Hl).
Qed.

Lemma filter_all (A : Type) (f : A -> bool) (l : list A) :
  (forall x, In x l -> f x = true) -> filter f l = l.
Proof.
  induction l as [|a l IH]; simpl; intros H; [reflexivity|].
  rewrite (H a (or_introl eq_refl)). f_equal. apply IH. intros x Hx. apply H. now right.
Qed.

(** X16: entering the queue and leaving it undo each other: when the
    put goes through, the row counts as alive for every check up to
    sixty seconds later, a second put of the same key is refused, and
    deleting the row gives back the table as it was. *)
Theorem put_then_delete_restores_the_table (now : Q) (p s : string)
  (table table' : list lock_row) :
  put_lock now p s table = Some table' ->
  delete_lock p s table' = table
  /\ (forall later, put_lock later p s table' = None)
  /\ (exists row, In row table' /\ same_key p s row = true
                  /\ forall later, later <= now + 60 -> expired later row = false).
Proof.
  unfold put_lock. destruct (existsb (same_key p s) table) eqn:E; [discriminate|].
  intros H. injection H as <-.
  assert (same_key p s (mkLock p s now (now + 60)) = true) as Hnew
    by (unfold same_key; simpl; now rewrite !String.eqb_refl).
  split; [|split].
  - unfold delete_lock. simpl. rewrite Hnew. simpl. apply filter_all.
    intros x Hx. apply negb_true_iff.
    destruct (same_key p s x) eqn:K; [|reflexivity].
    assert (existsb (same_key p s) table = true) as C
      by (apply existsb_exists; now exists x).
    congruence.
  - intros later. simpl. now rewrite Hnew.
  - exists (mkLock p s now (now + 60)). split; [now left|]. split; [exact Hnew|].
    intros later Hl. apply (alive_until now); [reflexivity | exact Hl].
Qed.

(** X17: the heartbeat never creates a row: on a key that is not in
    the table (never entered, or deleted in the meantime) it fails and
    creates nothing; when it goes through, the table has the same keys
    in the same places, the rows of other keys are unchanged, and the
    refreshed row counts as alive for every check up to sixty seconds
    later. *)
Theorem heartbeat_refreshes_only_an_existing_row (now : Q) (p s : string)
  (table : list lock_row) :
  heartbeat now p s (delete_lock p s table) = None
  /\ match heartbeat now p s table with
     | None => forall row, In row table -> same_key p s row = false
     | Some table' =>
         map (fun row => (pk row, sk row)) table'
         = map (fun row => (pk row, sk row)) table
         /\ (forall row, In row table -> same_key p s row = false -> In row table')
         /\ (forall row', In row' table' ->
               if same_key p s row'
               then forall later, later <= now + 60 -> expired later row' = false
               else In row' table)
     end.
Proof.
  split.
  - unfold heartbeat.
    replace (existsb (same_key p s) (delete_lock p s table)) with false; [reflexivity|].
    symmetry. destruct (existsb (same_key p s) (delete_lock p s table)) eqn:E;
      [|reflexivity].
    apply existsb_exists in E as [x [Hx K]]. apply filter_In in Hx as [_ Hx].
    rewrite K in Hx. discriminate.
  - unfold heartbeat. destruct (existsb (same_key p s) table) eqn:E.
    + split; [|split].
      * rewrite map_map. apply map_ext. intros row. now destruct (same_key p s row).
      * intros row Hrow K. apply in_map_iff. exists row. now rewrite K.
      * intros row' Hrow'. apply in_map_iff in Hrow' as [row [<- Hrow]].
        destruct (same_key p s row) eqn:K.
        -- assert (same_key p s (mkLock (pk row) (sk row) (createdAt row) (now + 60)) = true)
             as -> by exact K.
           intros later Hl. apply (alive_until now); [reflexivity | exact Hl].
        -- now rewrite K.
    + intros row Hrow. destruct (same_key p s row) eqn:K; [|reflexivity].
      assert (existsb (same_key p s) table = true) as C
        by (apply existsb_exists; now exists row).
      congruence.
Qed.

(** ** Instances *)




(** A queue read at time 20: the row of ticket 1 expired at 10, the rows
    of tickets 2 and 3 are alive. *)
Definition waiting : list lock_row :=
  [ mkLock "lock" (sort_key "lock" 1%N) 0 10;
    mkLock "lock" (sort_key "lock" 2%N) 5 65;
    mkLock "lock" (sort_key "lock" 3%N) 6 66 ].

Lemma at_most_one_key_at_the_front_witness :
  sort_key "lock" 2%N <> sort_key "lock" 3%N
  /\ fst (check_queue (sort_key "lock" 2%N) 20 waiting []) = Some true
  /\ fst (check_queue (sort_key "lock" 3%N) 20 waiting []) = Some false.
Proof.
  assert (sort_key "lock" 2%N <> sort_key "lock" 3%N) as Hne
    by (intros C; vm_compute in C; discriminate).
  split; [exact Hne|]. split; [reflexivity|].
  apply (at_most_one_key_at_the_front (sort_key "lock" 2%N) (sort_key "lock" 3%N)
           20 waiting [] Hne).
  reflexivity.
Defined.


Lemma put_then_delete_restores_the_table_witness :
  put_lock 100 "lock" (sort_key "lock" 2%N) [mkLock "lock" (sort_key "lock" 1%N) 90 150]
  = Some [ mkLock "lock" (sort_key "lock" 2%N) 100 (100 + 60);
           mkLock "lock" (sort_key "lock" 1%N) 90 150 ]
  /\ delete_lock "lock" (sort_key "lock" 2%N)
       [ mkLock "lock" (sort_key "lock" 2%N) 100 (100 + 60);
         mkLock "lock" (sort_key "lock" 1%N) 90 150 ]
     = [mkLock "lock" (sort_key "lock" 1%N) 90 150]
  /\ forall later,
       put_lock later "lock" (sort_key "lock" 2%N)
         [ mkLock "lock" (sort_key "lock" 2%N) 100 (100 + 60);
           mkLock "lock" (sort_key "lock" 1%N) 90 150 ]
       = None.
Proof.
  split; [reflexivity|].
  destruct (put_then_delete_restores_the_table 100 "lock" (sort_key "lock" 2%N)
              [mkLock "lock" (sort_key "lock" 1%N) 90 150]
              [ mkLock "lock" (sort_key "lock" 2%N) 100 (100 + 60);
                mkLock "lock" (sort_key "lock" 1%N) 90 150 ] eq_refl) as [H1 [H2 _]].
  split; [exact H1 | exact H2].
Defined.

End TicketLock.

(** * Zero-argument, asynchronous configuration

    The service classes of the repository: each has a static [getConfig]
    that completes a partial configuration from defaults and the process
    environment, and a static [new] that builds the service from it.  A
    [Promise] is its settled outcome; [Partial<T>] is a record of
    optional fields, at every level, since that is what the code reads. *)

Module AsyncConfig.

Local Open Scope string_scope.

(** The settled outcome of a [Promise]: resolved, or rejected with the
    message of the [Error] thrown. *)
Inductive Promise (A : Type) : Type :=
| Resolved (value : A)
| Rejected (message : string).

Arguments Resolved {A} value.
Arguments Rejected {A} message.

(** [await p] followed by the rest of the function. *)
Definition await {A B : Type} (p : Promise A) (k : A -> Promise B) : Promise B :=
  match p with
  | Resolved a => k a
  | Rejected m => Rejected m
  end.

(** The two variables of [process.env] the code reads. *)
Record Env : Type := mkEnv {
  URL : option string;
  TABLE_NAME : option string
}.

(** [!s] for a string that may be undefined. *)
Definition falsy (s : option string) : bool :=
  match s with
  | None => true
  | Some EmptyString => true
  | Some _ => false
  end.

(** [a || b] for a string that may be undefined. *)
Definition or_else (a : option string) (b : string) : string :=
  match a with
  | None => b
  | Some EmptyString => b
  | Some s => s
  end.

(** [const { x = d } = options]: the default replaces [undefined] only. *)
Definition defaulted {A : Type} (x : option A) (d : option A) : option A :=
  match x with
  | Some v => Some v
  | None => d
  end.

(** A JavaScript number, as far as the code goes: it only stores them. *)
Inductive number : Type :=
| Finite (z : Z)
| Infinity.

Module Authorization.

Record ICredentials : Type := mkCredentials {
  password : string;
  username : string
}.

Record IServiceConfig : Type := mkConfig {
  credentials : ICredentials;
  url : string
}.

Module Partial.

Record ICredentials : Type := mkCredentials {
  password : option string;
  username : option string
}.

Record IServiceConfig : Type := mkConfig {
  credentials : option ICredentials;
  url : option string
}.

(** [{}] *)
Definition empty : IServiceConfig := mkConfig None None.

End Partial.

(** A complete configuration, passed where a partial one is expected. *)
Definition as_partial (c : IServiceConfig) : Partial.IServiceConfig :=
  Partial.mkConfig
    (Some (Partial.mkCredentials (Some (password (credentials c)))
                                 (Some (username (credentials c)))))
    (Some (url c)).

(** static async getCredentials(options: Partial<ICredentials> = {}) *)
Definition getCredentials (options : option Partial.ICredentials) : ICredentials :=
  let options := match options with
                 | Some o => o
                 | None => Partial.mkCredentials None None
                 end in
  mkCredentials (or_else (Partial.password options) "some-password")
                (or_else (Partial.username options) "some-username").

(** static async getConfig(options: Partial<IServiceConfig> = {}) *)
Definition getConfig (env : Env) (options : option Partial.IServiceConfig)
  : Promise IServiceConfig :=
  let options := match options with Some o => o | None => Partial.empty end in
  let url := defaulted (Partial.url options) (URL env) in
  if falsy url then Rejected "Missing required configuration parameter url."
  else
    match url with
    | Some u => Resolved (mkConfig (getCredentials (Partial.credentials options)) u)
    | None => Rejected "Missing required configuration parameter url."
    end.

(** An instance: the private [#credentials] and the public [url]. *)
Record Service : Type := mkService {
  _credentials : ICredentials;
  service_url : string
}.

(** constructor(options: IServiceOptions) *)
Definition constructor (config : IServiceConfig) : Service :=
  mkService (credentials config) (url config).

(** static async new(options: SomePartial<IServiceOptions, 'config'> = {}) *)
Definition new (env : Env) (config : option Partial.IServiceConfig) : Promise Service :=
  await (getConfig env config) (fun c => Resolved (constructor c)).

End Authorization.

Module Base.

Record IServiceConfig : Type := mkConfig {
  authorization : Authorization.IServiceConfig;
  tableName : string;
  timeoutMS : option number;
  zone : number
}.

Module Partial.

Record IServiceConfig : Type := mkConfig {
  authorization : option Authorization.Partial.IServiceConfig;
  tableName : option string;
  timeoutMS : option number;
  zone : option number
}.

Definition empty : IServiceConfig := mkConfig None None None None.

End Partial.

Definition as_partial (c : IServiceConfig) : Partial.IServiceConfig :=
  Partial.mkConfig (Some (Authorization.as_partial (authorization c)))
                   (Some (tableName c)) (timeoutMS c) (Some (zone c)).

(** static async getConfig(options: Partial<IServiceConfig> = {}) *)
Definition getConfig (env : Env) (options : option Partial.IServiceConfig)
  : Promise IServiceConfig :=
  let options := match options with Some o => o | None => Partial.empty end in
  let tableName := defaulted (Partial.tableName options) (TABLE_NAME env) in
  let timeoutMS := defaulted (Partial.timeoutMS options) (Some Infinity) in
  let zone := match Partial.zone options with Some z => z | None => Finite 0 end in
  if falsy tableName
  then Rejected "Missing required configuration parameter tableName."
  else
    match tableName with
    | Some t =>
        await (Authorization.getConfig env (Partial.authorization options))
              (fun a => Resolved (mkConfig a t timeoutMS zone))
    | None => Rejected "Missing required configuration parameter tableName."
    end.

End Base.

Module Gadgets.

Record IServiceConfig : Type := mkConfig {
  base : Base.IServiceConfig;     (* extends Base.IServiceConfig *)
  length : number
}.

Module Partial.

Record IServiceConfig : Type := mkConfig {
  rest : Base.Partial.IServiceConfig;
  length : option number
}.

Definition empty : IServiceConfig := mkConfig Base.Partial.empty None.

End Partial.

Definition as_partial (c : IServiceConfig) : Partial.IServiceConfig :=
  Partial.mkConfig (Base.as_partial (base c)) (Some (length c)).

(** const { length = 0, ...rest } = options;
    const config = await super.getConfig(rest);
    return { ...rest, ...config, length };
    -- [config] has every key of [rest], so it overrides all of it. *)
Definition getConfig (env : Env) (options : option Partial.IServiceConfig)
  : Promise IServiceConfig :=
  let options := match options with Some o => o | None => Partial.empty end in
  let length := match Partial.length options with Some l => l | None => Finite 0 end in
  await (Base.getConfig env (Some (Partial.rest options)))
        (fun config => Resolved (mkConfig config length)).

(** An instance holds its configuration; [assemble] does nothing. *)
Record Service : Type := mkService { config : IServiceConfig }.

Definition new (env : Env) (config : option Partial.IServiceConfig) : Promise Service :=
  await (getConfig env config) (fun c => Resolved (mkService c)).

End Gadgets.

Module Gizmos.

Record IServiceConfig : Type := mkConfig {
  base : Base.IServiceConfig;     (* extends Base.IServiceConfig *)
  diameter : number
}.

Module Partial.

Record IServiceConfig : Type := mkConfig {
  rest : Base.Partial.IServiceConfig;
  diameter : option number
}.

Definition empty : IServiceConfig := mkConfig Base.Partial.empty None.

End Partial.

Definition as_partial (c : IServiceConfig) : Partial.IServiceConfig :=
  Partial.mkConfig (Base.as_partial (base c)) (Some (diameter c)).

(** const { diameter = 0, ...rest } = options;
    const config = await super.getConfig(rest);
    return { ...rest, ...config, diameter }; *)
Definition getConfig (env : Env) (options : option Partial.IServiceConfig)
  : Promise IServiceConfig :=
  let options := match options with Some o => o | None => Partial.empty end in
  let diameter := match Partial.diameter options with Some l => l | None => Finite 0 end in
  await (Base.getConfig env (Some (Partial.rest options)))
        (fun config => Resolved (mkConfig config diameter)).

Record Service : Type := mkService { config : IServiceConfig }.

Definition new (env : Env) (config : option Partial.IServiceConfig) : Promise Service :=
  await (getConfig env config) (fun c => Resolved (mkService c)).

End Gizmos.

Module Widgets.

Inductive FactoryType : Type := gadgets | gizmos.

Record IServiceConfig : Type := mkConfig {
  gadgets_config : Gadgets.IServiceConfig;   (* gadgets: Gadgets.IServiceConfig *)
  gizmos_config : Gizmos.IServiceConfig      (* gizmos: Gizmos.IServiceConfig *)
}.

Module Partial.

Record IServiceConfig : Type := mkConfig {
  gadgets_config : option Gadgets.Partial.IServiceConfig;
  gizmos_config : option Gizmos.Partial.IServiceConfig
}.

Definition empty : IServiceConfig := mkConfig None None.

End Partial.

Definition as_partial (c : IServiceConfig) : Partial.IServiceConfig :=
  Partial.mkConfig (Some (Gadgets.as_partial (gadgets_config c)))
                   (Some (Gizmos.as_partial (gizmos_config c))).

(** return { gadgets: await Gadgets.Service.getConfig(gadgets),
             gizmos: await Gizmos.Service.getConfig(gizmos) }; *)
Definition getConfig (env : Env) (options : option Partial.IServiceConfig)
  : Promise IServiceConfig :=
  let options := match options with Some o => o | None => Partial.empty end in
  await (Gadgets.getConfig env (Partial.gadgets_config options)) (fun g =>
  await (Gizmos.getConfig env (Partial.gizmos_config options)) (fun z =>
  Resolved (mkConfig g z))).

(** public readonly adapter: Base.Service *)
Inductive Adapter : Type :=
| GadgetsService (s : Gadgets.Service)
| GizmosService (s : Gizmos.Service).

Record Service : Type := mkService {
  adapter : Adapter;
  config : Base.IServiceConfig
}.

(** constructor(options: IServiceOptions): the switch on [factoryType]. *)
Definition constructor (c : IServiceConfig) (factoryType : FactoryType) : Service :=
  match factoryType with
  | gadgets =>
      mkService (GadgetsService (Gadgets.mkService (gadgets_config c)))
                (Gadgets.base (gadgets_config c))
  | gizmos =>
      mkService (GizmosService (Gizmos.mkService (gizmos_config c)))
                (Gizmos.base (gizmos_config c))
  end.

(** static async new(options: SomePartial<IServiceOptions, 'config'>) *)
Definition new (env : Env) (config : option Partial.IServiceConfig)
  (factoryType : FactoryType) : Promise Service :=
  await (getConfig env config) (fun c => Resolved (constructor c factoryType)).

End Widgets.

(** ** What [getConfig] completes and what it rejects *)

Lemma or_else_nonempty a b : b <> "" -> or_else a b <> "".
Proof. destruct a as [[|c v]|]; simpl; auto; discriminate. Qed.

Lemma or_else_keeps v b : v <> "" -> or_else (Some v) b = v.
Proof. destruct v; [contradiction | reflexivity]. Qed.

Lemma getCredentials_nonempty options :
  Authorization.password (Authorization.getCredentials options) <> ""
  /\ Authorization.username (Authorization.getCredentials options) <> "".
Proof.
  unfold Authorization.getCredentials. simpl.
  split; apply or_else_nonempty; discriminate.
Qed.

(** X18: the credentials [getCredentials] returns are never empty: a
    non-empty password or user name that was given is kept, a missing
    or empty one is replaced by the built-in default. *)
Theorem credentials_are_never_empty (options : option Authorization.Partial.ICredentials) :
  let c := Authorization.getCredentials options in
  Authorization.password c <> "" /\ Authorization.username c <> ""
  /\ (forall o p, options = Some o -> Authorization.Partial.password o = Some p ->
        p <> "" -> Authorization.password c = p)
  /\ (forall o u, options = Some o -> Authorization.Partial.username o = Some u ->
        u <> "" -> Authorization.username c = u)
  /\ (forall o, options = Some o -> Authorization.Partial.password o = Some "" ->
        Authorization.password c = "some-password")
  /\ (options = None ->
        c = Authorization.mkCredentials "some-password" "some-username").
Proof.
  unfold Authorization.getCredentials. simpl.
  split; [apply or_else_nonempty; discriminate|].
  split; [apply or_else_nonempty; discriminate|].
  split; [intros o p -> -> Hp; now apply or_else_keeps|].
  split; [intros o u -> -> Hu; now apply or_else_keeps|].
  split; [intros o -> ->; reflexivity|].
  intros ->. reflexivity.
Qed.

(** The [url] a caller passed, if any. *)
Definition given_url (options : option Authorization.Partial.IServiceConfig)
  : option string :=
  match options with
  | Some o => Authorization.Partial.url o
  | None => None
  end.

Lemma authorization_getConfig_cases env options :
  match defaulted (given_url options) (URL env) with
  | Some (String c u) =>
      Authorization.getConfig env options
      = Resolved (Authorization.mkConfig
          (Authorization.getCredentials
             (match options with
              | Some o => Authorization.Partial.credentials o
              | None => None
              end))
          (String c u))
  | _ => Authorization.getConfig env options
         = Rejected "Missing required configuration parameter url."
  end.
Proof.
  unfold Authorization.getConfig, given_url.
  destruct options as [[cr [[|c u]|]]|]; simpl; try reflexivity;
    destruct (URL env) as [[|c u]|]; reflexivity.
Qed.

(** X19: [Authorization.getConfig] rejects exactly when the caller gave
    an empty [url], or gave none while [process.env.URL] is missing or
    empty.  The environment is consulted only when no [url] is given: an
    explicitly empty [url] is rejected even if the environment has one. *)
Theorem authorization_config_needs_a_url (env : Env)
  (options : option Authorization.Partial.IServiceConfig) (message : string) :
  Authorization.getConfig env options = Rejected message <->
  message = "Missing required configuration parameter url."
  /\ (given_url options = Some ""
      \/ (given_url options = None /\ falsy (URL env) = true)).
Proof.
  pose proof (authorization_getConfig_cases env options) as H.
  destruct (given_url options) as [[|c u]|] eqn:G; simpl in H.
  - rewrite H. split.
    + intros E. injection E as <-. split; [reflexivity | now left].
    + intros [-> _]. reflexivity.
  - rewrite H. split; [discriminate|].
    intros [_ [C|[C _]]]; discriminate.
  - destruct (URL env) as [[|c u]|] eqn:U; rewrite H; simpl.
    + split; [intros E; injection E as <-; split; [reflexivity | right; now split]|].
      intros [-> _]. reflexivity.
    + split; [discriminate|]. intros [_ [C|[_ C]]]; discriminate.
    + split; [intros E; injection E as <-; split; [reflexivity | right; now split]|].
      intros [-> _]. reflexivity.
Qed.

(** *** A completed configuration is a fixed point *)

Lemma credentials_fixed options :
  Authorization.getCredentials
    (Some (Authorization.Partial.mkCredentials
   (Some (Authorization.password (Authorization.getCredentials options)))
   (Some (Authorization.username (Authorization.getCredentials options)))))
  = Authorization.getCredentials options.
Proof.
  destruct (getCredentials_nonempty options) as [Hp Hu].
  destruct (Authorization.getCredentials options) as [p u]. simpl in *.
  destruct p; [contradiction|]. destruct u; [contradiction|]. reflexivity.
Qed.

Lemma authorization_fixed env options c :
  Authorization.getConfig env options = Resolved c ->
  forall env', Authorization.getConfig env' (Some (Authorization.as_partial c)) = Resolved c.
Proof.
  intros H env'. pose proof (authorization_getConfig_cases env options) as Hc.
  destruct (defaulted (given_url options) (URL env)) as [[|ch u]|];
    rewrite Hc in H; try discriminate.
  injection H as <-.
  unfold Authorization.getConfig, Authorization.as_partial.
  cbn [Authorization.Partial.url Authorization.Partial.credentials
       Authorization.url Authorization.credentials defaulted falsy].
  now rewrite credentials_fixed.
Qed.

(** X20: [Authorization.getConfig] completes a configuration once and
    for all: a configuration it resolved to, passed back as the partial
    one, resolves to itself, whatever the environment then holds. *)
Theorem authorization_config_is_a_fixed_point (env : Env)
  (options : option Authorization.Partial.IServiceConfig)
  (c : Authorization.IServiceConfig) :
  Authorization.getConfig env options = Resolved c ->
  Authorization.url c <> ""
  /\ forall env',
       Authorization.getConfig env' (Some (Authorization.as_partial c)) = Resolved c.
Proof.
  intros H. split; [|now apply (authorization_fixed env options)].
  pose proof (authorization_getConfig_cases env options) as Hc.
  destruct (defaulted (given_url options) (URL env)) as [[|ch u]|];
    rewrite Hc in H; try discriminate.
  injection H as <-. discriminate.
Qed.

(** The fields of the partial options [Base.getConfig] reads. *)
Definition base_options (options : option Base.Partial.IServiceConfig)
  : Base.Partial.IServiceConfig :=
  match options with
  | Some o => o
  | None => Base.Partial.empty
  end.

Lemma base_getConfig_cases env options :
  let o := base_options options in
  match defaulted (Base.Partial.tableName o) (TABLE_NAME env) with
  | Some (String ch t) =>
      Base.getConfig env options
      = await (Authorization.getConfig env (Base.Partial.authorization o))
(fun a => Resolved
   (Base.mkConfig a (String ch t)
      (defaulted (Base.Partial.timeoutMS o) (Some Infinity))
      (match Base.Partial.zone o with Some z => z | None => Finite 0 end)))
  | _ => Base.getConfig env options
         = Rejected "Missing required configuration parameter tableName."
  end.
Proof.
  unfold Base.getConfig, base_options.
  destruct options as [[a [[|ch t]|] tm z]|]; simpl; try reflexivity;
    destruct (TABLE_NAME env) as [[|ch t]|]; reflexivity.
Qed.

Lemma base_fixed env options c :
  Base.getConfig env options = Resolved c ->
  forall env', Base.getConfig env' (Some (Base.as_partial c)) = Resolved c.
Proof.
  intros H env'. pose proof (base_getConfig_cases env options) as Hc. simpl in Hc.
  destruct (defaulted (Base.Partial.tableName (base_options options)) (TABLE_NAME env))
    as [[|ch t]|]; rewrite Hc in H; try discriminate.
  destruct (Authorization.getConfig env (Base.Partial.authorization (base_options options)))
    as [a|m] eqn:A; simpl in H; [|discriminate].
  injection H as <-.
  unfold Base.getConfig, Base.as_partial. simpl.
  rewrite (authorization_fixed _ _ _ A env'). simpl.
  now destruct (Base.Partial.timeoutMS (base_options options)).
Qed.

(** X21: [Base.getConfig] looks at [tableName] before it configures the
    nested [Authorization] service: without a table name (given, or
    else [process.env.TABLE_NAME]) it rejects with the table name
    message even when the url is missing as well; with one, a rejection
    of the nested [getConfig] is passed on; and when it resolves,
    [timeoutMS] is the given value or [Infinity], [zone] the given value
    or [0], and the authorization part is what the nested [getConfig]
    resolved to. *)
Theorem base_config_checks_the_table_name_first (env : Env)
  (options : option Base.Partial.IServiceConfig) :
  let o := base_options options in
  let table := defaulted (Base.Partial.tableName o) (TABLE_NAME env) in
  (falsy table = true ->
     Base.getConfig env options
     = Rejected "Missing required configuration parameter tableName.")
  /\ (falsy table = false ->
       forall m, Authorization.getConfig env (Base.Partial.authorization o) = Rejected m ->
       Base.getConfig env options = Rejected m)
  /\ (forall c, Base.getConfig env options = Resolved c ->
       table = Some (Base.tableName c)
       /\ Authorization.getConfig env (Base.Partial.authorization o)
= Resolved (Base.authorization c)
       /\ Base.timeoutMS c
= Some (match Base.Partial.timeoutMS o with Some x => x | None => Infinity end)
       /\ Base.zone c
= match Base.Partial.zone o with Some z => z | None => Finite 0 end).
Proof.
  intros o table. pose proof (base_getConfig_cases env options) as Hc.
  simpl in Hc. fold o in Hc. fold table in Hc.
  destruct table as [[|ch t]|]; simpl.
  - split; [intros _; exact Hc|]. split; [discriminate|].
    intros c H. rewrite Hc in H. discriminate.
  - split; [discriminate|]. split.
    + intros _ m A. rewrite Hc, A. reflexivity.
    + intros c H. rewrite Hc in H.
      destruct (Authorization.getConfig env (Base.Partial.authorization o)) as [a|m];
        simpl in H; [|discriminate].
      injection H as <-. simpl. repeat split.
      now destruct (Base.Partial.timeoutMS o).
  - split; [intros _; exact Hc|]. split; [discriminate|].
    intros c H. rewrite Hc in H. discriminate.
Qed.

Lemma gadgets_fixed env options c :
  Gadgets.getConfig env options = Resolved c ->
  forall env', Gadgets.getConfig env' (Some (Gadgets.as_partial c)) = Resolved c.
Proof.
  unfold Gadgets.getConfig. intros H env'.
  destruct (Base.getConfig env _) as [b|m] eqn:B; simpl in H; [|discriminate].
  injection H as <-. simpl. now rewrite (base_fixed _ _ _ B env').
Qed.

Lemma gizmos_fixed env options c :
  Gizmos.getConfig env options = Resolved c ->
  forall env', Gizmos.getConfig env' (Some (Gizmos.as_partial c)) = Resolved c.
Proof.
  unfold Gizmos.getConfig. intros H env'.
  destruct (Base.getConfig env _) as [b|m] eqn:B; simpl in H; [|discriminate].
  injection H as <-. simpl. now rewrite (base_fixed _ _ _ B env').
Qed.

(** X22: the nested configuration is completed once and for all: what
    [Widgets.getConfig] resolved to (the [Gadgets] and the [Gizmos]
    configuration, each with its [Base] and [Authorization] part),
    passed back as the partial configuration, resolves to itself in any
    environment, so a service can be rebuilt from the configuration of
    another without the environment it was first built in. *)
Theorem widgets_config_is_a_fixed_point (env : Env)
  (options : option Widgets.Partial.IServiceConfig) (c : Widgets.IServiceConfig) :
  Widgets.getConfig env options = Resolved c ->
  forall env' factoryType,
    Widgets.getConfig env' (Some (Widgets.as_partial c)) = Resolved c
    /\ Widgets.new env' (Some (Widgets.as_partial c)) factoryType
       = Widgets.new env options factoryType.
Proof.
  intros H env' ft.
  assert (Widgets.getConfig env' (Some (Widgets.as_partial c)) = Resolved c) as Hfix.
  { unfold Widgets.getConfig in *.
    destruct (Gadgets.getConfig env _) as [g|m] eqn:G; simpl in H; [|discriminate].
    destruct (Gizmos.getConfig env _) as [z|m] eqn:Z; simpl in H; [|discriminate].
    injection H as <-. simpl.
    rewrite (gadgets_fixed _ _ _ G env'). simpl.
    now rewrite (gizmos_fixed _ _ _ Z env'). }
  split; [exact Hfix|]. unfold Widgets.new. now rewrite Hfix, H.
Qed.

(** The configuration made of defaults and the environment only. *)
Definition default_base (u t : string) : Base.IServiceConfig :=
  Base.mkConfig
    (Authorization.mkConfig
       (Authorization.mkCredentials "some-password" "some-username") u)
    t (Some Infinity) (Finite 0).

Definition default_widgets (u t : string) : Widgets.IServiceConfig :=
  Widgets.mkConfig (Gadgets.mkConfig (default_base u t) (Finite 0))
         (Gizmos.mkConfig (default_base u t) (Finite 0)).

(** X23: given the factory type and no configuration, [Widgets.new]
    builds the service exactly when the environment has a non-empty
    [URL] and a non-empty [TABLE_NAME]; the service then carries the
    defaults (the built-in credentials, [timeoutMS] of [Infinity], zone
    0, length and diameter 0); otherwise it rejects, naming the table
    name first when both are missing. *)
Theorem new_without_config_needs_the_environment (env : Env)
  (factoryType : Widgets.FactoryType) :
  (forall u t, URL env = Some u -> TABLE_NAME env = Some t -> u <> "" -> t <> "" ->
     Widgets.new env None factoryType
     = Resolved (Widgets.constructor (default_widgets u t) factoryType))
  /\ (falsy (TABLE_NAME env) = true ->
       Widgets.new env None factoryType
       = Rejected "Missing required configuration parameter tableName.")
  /\ (falsy (TABLE_NAME env) = false -> falsy (URL env) = true ->
       Widgets.new env None factoryType
       = Rejected "Missing required configuration parameter url.").
Proof.
  unfold Widgets.new, Widgets.getConfig, Gadgets.getConfig, Gizmos.getConfig,
    Base.getConfig, Authorization.getConfig. simpl.
  destruct (TABLE_NAME env) as [[|c t]|]; destruct (URL env) as [[|c' u]|]; simpl;
    repeat split; try discriminate; try reflexivity;
    intros u0 t0 Hu Ht; try discriminate;
    injection Hu as <-; injection Ht as <-; intros; try contradiction; reflexivity.
Qed.

(** X24: [Widgets.new] configures both factories whichever one is asked
    for: it resolves only if the [Gadgets] and the [Gizmos]
    configuration both resolve, and the service it builds delegates to
    the adapter named by [factoryType] and exposes that adapter's own
    configuration. *)
Theorem widgets_service_matches_its_factory (env : Env)
  (options : option Widgets.Partial.IServiceConfig)
  (factoryType : Widgets.FactoryType) (s : Widgets.Service) :
  Widgets.new env options factoryType = Resolved s ->
  let o := match options with Some o => o | None => Widgets.Partial.empty end in
  exists g z,
    Gadgets.getConfig env (Widgets.Partial.gadgets_config o) = Resolved g
    /\ Gizmos.getConfig env (Widgets.Partial.gizmos_config o) = Resolved z
    /\ match factoryType with
       | Widgets.gadgets =>
 Widgets.adapter s = Widgets.GadgetsService (Gadgets.mkService g)
 /\ Widgets.config s = Gadgets.base g
       | Widgets.gizmos =>
 Widgets.adapter s = Widgets.GizmosService (Gizmos.mkService z)
 /\ Widgets.config s = Gizmos.base z
       end.
Proof.
  intros H. cbv zeta. unfold Widgets.new, Widgets.getConfig in H. cbv zeta in H.
  set (o := match options with Some o => o | None => Widgets.Partial.empty end) in *.
  destruct (Gadgets.getConfig env (Widgets.Partial.gadgets_config o)) as [g|m];
    simpl in H; [|discriminate].
  destruct (Gizmos.getConfig env (Widgets.Partial.gizmos_config o)) as [z|m];
    simpl in H; [|discriminate].
  injection H as <-. exists g, z. split; [reflexivity|]. split; [reflexivity|].
  destruct factoryType; simpl; now split.
Qed.

(** *** Instances *)

Definition example_env : Env := mkEnv (Some "https://example.com") (Some "widgets").

Lemma authorization_config_is_a_fixed_point_witness :
  Authorization.getConfig example_env None
  = Resolved (Authorization.mkConfig
      (Authorization.mkCredentials "some-password" "some-username")
      "https://example.com")
  /\ forall env',
       Authorization.getConfig env'
         (Some (Authorization.as_partial
        (Authorization.mkConfig
           (Authorization.mkCredentials "some-password" "some-username")
           "https://example.com")))
       = Resolved (Authorization.mkConfig
           (Authorization.mkCredentials "some-password" "some-username")
           "https://example.com").
Proof.
  split; [reflexivity|].
  destruct (authorization_config_is_a_fixed_point example_env None
    (Authorization.mkConfig
       (Authorization.mkCredentials "some-password" "some-username")
       "https://example.com") eq_refl) as [_ H].
  exact H.
Defined.

Lemma widgets_config_is_a_fixed_point_witness :
  Widgets.getConfig example_env None
  = Resolved (default_widgets "https://example.com" "widgets")
  /\ forall env' factoryType,
       Widgets.getConfig env'
         (Some (Widgets.as_partial (default_widgets "https://example.com" "widgets")))
       = Resolved (default_widgets "https://example.com" "widgets")
       /\ Widgets.new env'
  (Some (Widgets.as_partial (default_widgets "https://example.com" "widgets")))
  factoryType
= Widgets.new example_env None factoryType.
Proof.
  split; [reflexivity|].
  exact (widgets_config_is_a_fixed_point example_env None
 (default_widgets "https://example.com" "widgets") eq_refl).
Defined.

Lemma widgets_service_matches_its_factory_witness :
  Widgets.new example_env None Widgets.gizmos
  = Resolved (Widgets.constructor (default_widgets "https://example.com" "widgets")
      Widgets.gizmos)
  /\ exists g z,
       Gadgets.getConfig example_env None = Resolved g
       /\ Gizmos.getConfig example_env None = Resolved z
       /\ Widgets.adapter
  (Widgets.constructor (default_widgets "https://example.com" "widgets")
     Widgets.gizmos)
= Widgets.GizmosService (Gizmos.mkService z)
       /\ Widgets.config
  (Widgets.constructor (default_widgets "https://example.com" "widgets")
     Widgets.gizmos)
= Gizmos.base z.
Proof.
  split; [reflexivity|].
  exact (widgets_service_matches_its_factory example_env None Widgets.gizmos
 (Widgets.constructor (default_widgets "https://example.com" "widgets")
    Widgets.gizmos) eq_refl).
Defined.

End AsyncConfig.
